(** * Sector rotation strategy: Allocator and Backtest engine

    Shallow embedding of [strategy.py] (class [SectorStrategy]) and
    [backtest.py] (class [Backtest]).

    Conventions of the embedding.
    - A float64 cell is an [option Q]: [None] is NaN (a missing value), and
      [Some q] is a number.  Arithmetic is the exact arithmetic of the
      rationals; a division by zero, which IEEE arithmetic answers with an
      infinity or NaN, gives [None].
    - A pandas Series is the list of its cells; a DataFrame is its date index,
      its column labels and the list of its rows.
    - Square roots and powers with a fractional exponent are not rational:
      they are parameters of the development ([fsqrt], [pow_frac]). *)

From Stdlib Require Import String Ascii.
From Stdlib Require Import List ZArith QArith Qpower Bool Lia Lqa Arith Permutation.
Import ListNotations.
Open Scope Q_scope.

(** ** Float cells *)

Abbreviation F := (option Q).
Definition NaN : F := None.

Definition lift2 (op : Q -> Q -> Q) (a b : F) : F :=
  match a, b with
  | Some x, Some y => Some (op x y)
  | _, _ => None
  end.

Definition fadd : F -> F -> F := lift2 Qplus.
Definition fsub : F -> F -> F := lift2 Qminus.
Definition fmul : F -> F -> F := lift2 Qmult.

Definition fdiv (a b : F) : F :=
  match a, b with
  | Some x, Some y => if Qeq_bool y 0 then None else Some (x / y)
  | _, _ => None
  end.

Definition fneg (a : F) : F := option_map Qopp a.

(** [a > b] on cells: a comparison with NaN is false. *)
Definition fgt (a b : F) : bool :=
  match a, b with
  | Some x, Some y => negb (Qle_bool x y)
  | _, _ => false
  end.

Definition flt (a b : F) : bool := fgt b a.

Definition isna (a : F) : bool :=
  match a with None => true | Some _ => false end.

Definition fillna (v : Q) (a : F) : F :=
  match a with None => Some v | Some _ => a end.

Definition Qgtb (x y : Q) : bool := negb (Qle_bool x y).

(** ** Lists *)

Fixpoint mapi_from {A B : Type} (f : nat -> A -> B) (i : nat) (l : list A) : list B :=
  match l with
  | [] => []
  | x :: t => f i x :: mapi_from f (S i) t
  end.

Definition mapi {A B : Type} (f : nat -> A -> B) (l : list A) : list B :=
  mapi_from f 0%nat l.

Fixpoint map2 {A B C : Type} (f : A -> B -> C) (l1 : list A) (l2 : list B) : list C :=
  match l1, l2 with
  | x :: t1, y :: t2 => f x y :: map2 f t1 t2
  | _, _ => []
  end.

Definition Qsum (l : list Q) : Q := fold_right Qplus 0 l.
Definition Qprod (l : list Q) : Q := fold_right Qmult 1 l.

Definition Qlen (l : list Q) : Q := inject_Z (Z.of_nat (length l)).

(** [dropna]: the numbers of a Series, in order. *)
Fixpoint dropna (s : list F) : list Q :=
  match s with
  | [] => []
  | Some q :: t => q :: dropna t
  | None :: t => dropna t
  end.

(** Reductions, all with pandas' default [skipna=True]. *)
Definition nansum (s : list F) : Q := Qsum (dropna s).
Definition nanprod (s : list F) : Q := Qprod (dropna s).

Definition nanmean (s : list F) : F :=
  match dropna s with
  | [] => None
  | l => Some (Qsum l / Qlen l)
  end.

Definition Qmin_list (x : Q) (l : list Q) : Q :=
  fold_left (fun m y => if Qle_bool y m then y else m) l x.

Definition nanmin (s : list F) : F :=
  match dropna s with
  | [] => None
  | x :: l => Some (Qmin_list x l)
  end.

(** ** Series operations *)

Abbreviation Series := (list F).

(** [s.shift(1)]. *)
Definition shift1 {A : Type} (fill : A) (l : list A) : list A :=
  match l with
  | [] => []
  | _ => fill :: removelast l
  end.

(** The cell [periods] rows earlier, NaN when there is none. *)
Definition lagged (periods : nat) (s : Series) (i : nat) : F :=
  if (i <? periods)%nat then NaN else nth (i - periods) s NaN.

(** [s.diff()]. *)
Definition diff (s : Series) : Series :=
  mapi (fun i x => fsub x (lagged 1 s i)) s.

(** [s.pct_change(periods)]: [s[t] / s[t - periods] - 1]. *)
Definition pct_change (periods : nat) (s : Series) : Series :=
  mapi (fun i x => fsub (fdiv x (lagged periods s i)) (Some 1)) s.

(** [s.ffill()]. *)
Fixpoint ffill_from (last : F) (s : Series) : Series :=
  match s with
  | [] => []
  | x :: t =>
      let v := match x with None => last | Some _ => x end in
      v :: ffill_from v t
  end.

Definition ffill (s : Series) : Series := ffill_from NaN s.

(** [s.where(cond, other)]: the cell where [cond] holds, [other] elsewhere. *)
Definition where_ (cond : F -> bool) (other : F) (s : Series) : Series :=
  map (fun x => if cond x then x else other) s.

(** The trailing window of [window] cells that ends at row [i]. *)
Definition trailing (window i : nat) (s : Series) : Series :=
  firstn window (skipn (S i - window) s).

(** [s.rolling(window).agg()]: NaN until [window] rows are there; [agg]
    itself answers NaN when the window holds fewer than [window] numbers
    ([min_periods] defaults to the window size). *)
Definition rolling (window : nat) (agg : Series -> F) (s : Series) : Series :=
  mapi (fun i _ => if (S i <? window)%nat then NaN else agg (trailing window i s)) s.

Definition full_window (w : Series) : bool := forallb (fun x => negb (isna x)) w.

Definition window_mean (w : Series) : F :=
  if full_window w then nanmean w else NaN.

(** [s.cumprod()] and [s.cummax()]: NaN cells stay NaN and are skipped. *)
Fixpoint cumprod_from (acc : Q) (s : Series) : Series :=
  match s with
  | [] => []
  | None :: t => None :: cumprod_from acc t
  | Some x :: t => Some (acc * x) :: cumprod_from (acc * x) t
  end.

Definition cumprod (s : Series) : Series := cumprod_from 1 s.

Fixpoint cummax_from (acc : F) (s : Series) : Series :=
  match s with
  | [] => []
  | None :: t => None :: cummax_from acc t
  | Some x :: t =>
      let m := match acc with
               | Some a => if Qle_bool x a then a else x
               | None => x
               end in
      Some m :: cummax_from (Some m) t
  end.

Definition cummax (s : Series) : Series := cummax_from None s.

(** ** Dates *)

Record Date : Type := mkDate { year : Z; month : Z; day : Z }.

Definition date_eqb (a b : Date) : bool :=
  ((year a =? year b) && (month a =? month b) && (day a =? day b))%Z.

Definition date_ltb (a b : Date) : bool :=
  ((year a <? year b)
   || ((year a =? year b) && ((month a <? month b)
       || ((month a =? month b) && (day a <? day b)))))%Z.

Definition is_leap (y : Z) : bool :=
  (((y mod 4 =? 0) && negb (y mod 100 =? 0)) || (y mod 400 =? 0))%Z.

Definition days_in_month (y m : Z) : Z :=
  (if m =? 2 then (if is_leap y then 29 else 28)
   else if (m =? 4) || (m =? 6) || (m =? 9) || (m =? 11) then 30
   else 31)%Z.

Definition valid_date (d : Date) : bool :=
  ((1 <=? month d) && (month d <=? 12) && (1 <=? day d)
   && (day d <=? days_in_month (year d) (month d)))%Z.

(** Months are counted from year 0: the period ordinal of [to_period('M')]. *)
Definition month_index (d : Date) : Z := (year d * 12 + (month d - 1))%Z.

(** The label of a month under the ['ME'] rule: its last calendar day. *)
Definition month_end (mi : Z) : Date :=
  let y := (mi / 12)%Z in
  let m := (mi mod 12 + 1)%Z in
  mkDate y m (days_in_month y m).

Definition is_month_end (d : Date) : bool := date_eqb d (month_end (month_index d)).

(** ** Data frames *)

Abbreviation Row := (list F).

Record DataFrame : Type := mkDF {
  index : list Date;
  columns : list string;
  values : list Row
}.

(** One cell of a frame. *)
Definition cell (t : list Row) (i j : nat) : F := nth j (nth i t []) NaN.

Definition nan_row (ncols : nat) : Row := repeat NaN ncols.
Definition const_row (ncols : nat) (v : Q) : Row := repeat (Some v) ncols.

Definition column (j : nat) (rows : list Row) : Series :=
  map (fun r => nth j r NaN) rows.

(** A Series operation applied to every column ([df.apply(f)], and the
    column-wise DataFrame methods [pct_change], [rolling], [ffill]). *)
Definition apply_columns (f : Series -> Series) (ncols : nat) (rows : list Row) : list Row :=
  map (fun i => map (fun j => nth i (f (column j rows)) NaN) (seq 0 ncols))
      (seq 0 (length rows)).

(** Position of a label in an index. *)
Fixpoint index_of (d : Date) (idx : list Date) : option nat :=
  match idx with
  | [] => None
  | x :: t => if date_eqb x d then Some 0%nat else option_map S (index_of d t)
  end.

Definition mem_date (d : Date) (idx : list Date) : bool :=
  match index_of d idx with Some _ => true | None => false end.

(** [df.reindex(idx)] on the rows: the row of each label, a NaN row for a
    label the frame does not have. *)
Definition reindex (ncols : nat) (idx : list Date) (src_index : list Date)
    (src_rows : list Row) : list Row :=
  map (fun d => match index_of d src_index with
                | Some i => nth i src_rows (nan_row ncols)
                | None => nan_row ncols
                end) idx.

(** [a.intersection(b)] on indexes. *)
Definition intersection (a b : list Date) : list Date :=
  filter (fun d => mem_date d b) a.

(** [df.loc[idx]] for labels the frame has. *)
Definition loc (df : DataFrame) (idx : list Date) : DataFrame :=
  mkDF idx (columns df)
       (reindex (length (columns df)) idx (index df) (values df)).

(** Position of a column label. *)
Fixpoint column_position (c : string) (cols : list string) : option nat :=
  match cols with
  | [] => None
  | x :: t => if String.eqb x c then Some 0%nat else option_map S (column_position c t)
  end.

(** ['sub' in s] on Python strings. *)
Fixpoint contains (sub s : string) : bool :=
  if prefix sub s then true
  else match s with
       | EmptyString => false
       | String _ t => contains sub t
       end.

(** ** Exceptions *)

Inductive Exn : Type := KeyError | ZeroDivisionError.

Inductive Result (A : Type) : Type :=
| Ok (a : A)
| Raise (e : Exn).

Arguments Ok {A} a.
Arguments Raise {A} e.

Definition bind {A B : Type} (r : Result A) (k : A -> Result B) : Result B :=
  match r with
  | Ok a => k a
  | Raise e => Raise e
  end.

Fixpoint mapM {A B : Type} (f : A -> Result B) (l : list A) : Result (list B) :=
  match l with
  | [] => Ok []
  | x :: t => bind (f x) (fun y => bind (mapM f t) (fun ys => Ok (y :: ys)))
  end.

(** ** Monthly resampling: [scores.resample('ME').last()] *)

(** The last number of a Series, NaN when it has none. *)
Definition last_valid (s : Series) : F :=
  fold_left (fun acc x => match x with Some _ => x | None => acc end) s NaN.

(** The months from the first to the last date of a sorted index; a month
    without rows is a bin too. *)
Definition month_bins (idx : list Date) : list Z :=
  match idx with
  | [] => []
  | d0 :: _ =>
      let m0 := month_index d0 in
      let m1 := month_index (last idx d0) in
      map (fun k => (m0 + Z.of_nat k)%Z) (seq 0 (Z.to_nat (m1 - m0 + 1)))
  end.

Definition rows_of_month (mi : Z) (idx : list Date) (rows : list Row) : list Row :=
  map snd (filter (fun dr => (month_index (fst dr) =? mi)%Z) (combine idx rows)).

(** One row of the monthly table: per column, the last number of the month. *)
Definition monthly_row (ncols : nat) (idx : list Date) (rows : list Row) (mi : Z) : Row :=
  map (fun j => last_valid (column j (rows_of_month mi idx rows))) (seq 0 ncols).

Definition resample_ME_last (ncols : nat) (idx : list Date) (rows : list Row)
  : list Date * list Row :=
  (map month_end (month_bins idx), map (monthly_row ncols idx rows) (month_bins idx)).

(** ** Top-K selection: [valid_scores.nlargest(k)] *)

(** [row.dropna()] keeps the labels. *)
Fixpoint dropna_labelled (cols : list string) (row : Row) : list (string * Q) :=
  match cols, row with
  | c :: cs, Some q :: t => (c, q) :: dropna_labelled cs t
  | _ :: cs, None :: t => dropna_labelled cs t
  | _, _ => []
  end.

(** Stable insertion in decreasing order: [x] comes from further left than
    everything in [l], so it goes before the entries it ties with. *)
Fixpoint insert_desc (x : string * Q) (l : list (string * Q)) : list (string * Q) :=
  match l with
  | [] => [x]
  | y :: t => if Qgtb (snd y) (snd x) then y :: insert_desc x t else x :: y :: t
  end.

Definition sort_desc (l : list (string * Q)) : list (string * Q) :=
  fold_right insert_desc [] l.

(** The labels of the [n] largest entries ([keep='first']). *)
Definition nlargest (n : Z) (l : list (string * Q)) : list string :=
  map fst (firstn (Z.to_nat n) (sort_desc l)).

Definition mem_label (c : string) (l : list string) : bool :=
  existsb (String.eqb c) l.

(** ** SectorStrategy *)

Record SectorStrategy : Type := mkStrategy {
  prices : DataFrame;
  macro_data : option DataFrame;
  top_k : Z;
  momentum_period : nat;
  volatility_period : nat;
  rsi_period : nat;
  value_period : nat
}.

Definition eps : Q := 1 # 1000000.

(** [calculate_rsi(series, period)] *)
Definition calculate_rsi (series : Series) (period : nat) : Series :=
  let delta := diff series in
  let gain := rolling period window_mean
                (where_ (fun d => fgt d (Some 0)) (Some 0) delta) in
  let loss := rolling period window_mean
                (map fneg (where_ (fun d => flt d (Some 0)) (Some 0) delta)) in
  let rs := map2 fdiv gain (map (fun l => fadd l (Some eps)) loss) in
  map (fun r => fsub (Some 100) (fdiv (Some 100) (fadd (Some 1) r))) rs.

(** Lines 119-129 of [get_signal_df]: the weights of one monthly row. *)
Definition allocate_row (cols : list string) (k : Z) (row : Row) : Result Row :=
  let valid_scores := dropna_labelled cols row in
  if (Z.of_nat (length valid_scores) <? k)%Z then Ok (const_row (length cols) 0)
  else
    let top_sectors := nlargest k valid_scores in
    if (k =? 0)%Z then Raise ZeroDivisionError
    else
      let w := 1 / inject_Z k in
      Ok (map (fun c => if mem_label c top_sectors then Some w else Some 0) cols).

(** Lines 115-133 of [get_signal_df]: from the score table to the daily
    weights. *)
Definition get_signal_from_scores (cols : list string) (k : Z) (idx : list Date)
    (scores : list Row) : Result (list Row) :=
  let ncols := length cols in
  let monthly_scores := resample_ME_last ncols idx scores in
  bind (mapM (allocate_row cols k) (snd monthly_scores)) (fun weights =>
  let daily_weights :=
    map (map (fillna 0))
        (shift1 (nan_row ncols)
           (apply_columns ffill ncols
              (reindex ncols idx (fst monthly_scores) weights))) in
  Ok daily_weights).

(** Element-wise arithmetic of two frames with the same labels. *)
Definition frame_map2 (op : F -> F -> F) (a b : list Row) : list Row :=
  map2 (map2 op) a b.

Definition frame_scale (c : Q) (a : list Row) : list Row :=
  map (map (fmul (Some c))) a.

Definition frame_neg (a : list Row) : list Row := map (map fneg) a.

(** [regime.loc[mask, cols] += delta] for the columns whose label satisfies
    [sel]. *)
Definition loc_add (mask : list bool) (sel : string -> bool) (delta : Q)
    (cols : list string) (regime : list Row) : list Row :=
  map2 (fun (m : bool) row =>
          map2 (fun c x => if m && sel c then fadd x (Some delta) else x) cols row)
       mask regime.

Section Model.

(** [fsqrt] is the square root of the float library, [pow_frac x y] is
    [x ** y] for an exponent [y] that is not an integer. *)
Variable fsqrt : Q -> Q.
Variable pow_frac : Q -> Q -> F.

(** The sample standard deviation ([ddof=1]) of the numbers of a Series. *)
Definition nanstd (s : Series) : F :=
  let l := dropna s in
  if (length l <=? 1)%nat then None
  else
    let m := Qsum l / Qlen l in
    Some (fsqrt (Qsum (map (fun x => (x - m) * (x - m)) l) / (Qlen l - 1))).

Definition window_std (w : Series) : F :=
  if full_window w then nanstd w else NaN.

(** [x ** y] on floats. *)
Definition power (x y : Q) : F :=
  let y' := Qred y in
  if (Qden y' =? 1)%positive then
    if Qeq_bool x 0 && (Qnum y' <? 0)%Z then None else Some (x ^ Qnum y')
  else pow_frac x y.

(** [calculate_factors] *)
Definition calculate_factors (self : SectorStrategy)
  : list Row * list Row * list Row * list Row :=
  let ncols := length (columns (prices self)) in
  let p := values (prices self) in
  let momentum := apply_columns (pct_change (momentum_period self)) ncols p in
  let daily_rets := apply_columns (pct_change 1) ncols p in
  let volatility :=
    apply_columns (rolling (volatility_period self) window_std) ncols daily_rets in
  let rsi := apply_columns (fun x => calculate_rsi x (rsi_period self)) ncols p in
  let sma5y := apply_columns (rolling (value_period self) window_mean) ncols p in
  let value_proxy :=
    frame_map2 fdiv (frame_map2 fsub p sma5y)
               (map (map (fun x => fadd x (Some eps))) sma5y) in
  (momentum, volatility, rsi, value_proxy).

(** [get_macro_regime]: [Ok None] is Python's [None]. *)
Definition get_macro_regime (self : SectorStrategy) : Result (option (list Row)) :=
  match macro_data self with
  | None => Ok None
  | Some md =>
      let idx := index (prices self) in
      let cols := columns (prices self) in
      let mcols := length (columns md) in
      let macro := apply_columns ffill mcols (reindex mcols idx (index md) (values md)) in
      match column_position "INR=X" (columns md) with
      | None => Raise KeyError
      | Some ju =>
          let usd := column ju macro in
          let usd_ma := rolling 50 window_mean usd in
          let rupee_weak := map2 fgt usd usd_ma in
          match column_position "CL=F" (columns md) with
          | None => Raise KeyError
          | Some jc =>
              let crude := column jc macro in
              let crude_ma := rolling 50 window_mean crude in
              let oil_high := map2 fgt crude crude_ma in
              let regime := map (fun _ => const_row (length cols) 0) idx in
              let regime := loc_add rupee_weak (contains "IT") (1 # 2) cols regime in
              let regime := loc_add rupee_weak (contains "PHARMA") (1 # 2) cols regime in
              let regime := loc_add oil_high (contains "AUTO") (- (1 # 2)) cols regime in
              Ok (Some regime)
          end
      end
  end.

(** The inner function [zscore] of [compute_scores]. *)
Definition zscore_row (row : Row) : Row :=
  let m := nanmean row in
  let s := fadd (nanstd row) (Some eps) in
  map (fun x => fdiv (fsub x m) s) row.

Definition zscore (df : list Row) : list Row := map zscore_row df.

(** Lines 92-109 of [compute_scores]: from the factor tables on. *)
Definition composite (mom vol rsi val : list Row) (macro_boost : option (list Row))
  : list Row :=
  let z_mom := zscore mom in
  let z_vol := zscore vol in
  let z_rsi := zscore rsi in
  let z_val := zscore val in
  let score :=
    frame_map2 fadd
      (frame_map2 fadd
         (frame_map2 fadd (frame_scale (3 # 10) z_mom)
                          (frame_scale (3 # 10) (frame_neg z_val)))
         (frame_scale (2 # 10) z_rsi))
      (frame_scale (2 # 10) (frame_neg z_vol)) in
  match macro_boost with
  | Some boost => frame_map2 fadd score boost
  | None => score
  end.

(** [compute_scores] *)
Definition compute_scores (self : SectorStrategy) : Result (list Row) :=
  let '(mom, vol, rsi, val) := calculate_factors self in
  bind (get_macro_regime self) (fun macro_boost =>
  Ok (composite mom vol rsi val macro_boost)).

(** [get_signal_df] *)
Definition get_signal_df (self : SectorStrategy) : Result (list Row) :=
  bind (compute_scores self) (fun scores =>
  get_signal_from_scores (columns (prices self)) (top_k self)
                         (index (prices self)) scores).

(** [SectorStrategy.__init__] *)
Definition SectorStrategy_init (prices : DataFrame) (macro_data : option DataFrame)
    (top_k : Z) : SectorStrategy :=
  mkStrategy
    (mkDF (index prices) (columns prices)
          (apply_columns ffill (length (columns prices)) (values prices)))
    macro_data top_k 252 126 14 (252 * 5).

(** The composite score in the words of the specification, cell by cell.
    The cross-sectional z-score of one cell: the value minus the mean of
    its date's row, divided by the standard deviation of the row plus
    eps. *)
Definition zscore_cell (t : list Row) (i j : nat) : F :=
  let row := nth i t [] in
  fdiv (fsub (cell t i j) (nanmean row)) (fadd (nanstd row) (Some eps)).

(** 0.3*z_momentum + 0.3*(-z_value) + 0.2*z_rsi + 0.2*(-z_volatility). *)
Definition composite_cell (mom vol rsi val : list Row) (i j : nat) : F :=
  fadd (fadd (fadd (fmul (Some (3 # 10)) (zscore_cell mom i j))
                   (fmul (Some (3 # 10)) (fneg (zscore_cell val i j))))
             (fmul (Some (2 # 10)) (zscore_cell rsi i j)))
       (fmul (Some (2 # 10)) (fneg (zscore_cell vol i j))).

End Model.

(** ** Backtest *)

(** A Series together with its date index. *)
Record DatedSeries : Type := mkDS {
  ds_index : list Date;
  ds_values : Series
}.

Record Backtest : Type := mkBacktest {
  bt_prices : DataFrame;
  bt_weights : DataFrame;
  benchmark_prices : option DatedSeries;
  initial_capital : Q
}.

(** [Backtest.__init__]: both frames are cut to their common dates. *)
Definition Backtest_init (prices weights : DataFrame)
    (benchmark : option DatedSeries) (initial_capital : Q) : Backtest :=
  let common_index := intersection (index prices) (index weights) in
  mkBacktest
    (loc prices common_index)
    (loc weights common_index)
    (option_map
       (fun b =>
          let bi := intersection (ds_index b) common_index in
          mkDS bi (map (fun d => match index_of d (ds_index b) with
                                 | Some i => nth i (ds_values b) NaN
                                 | None => NaN
                                 end) bi))
       benchmark)
    initial_capital.

(** [Backtest.run]: the portfolio returns and the equity curve. *)
Definition run (self : Backtest) : DatedSeries * DatedSeries :=
  let ncols := length (columns (bt_prices self)) in
  let asset_returns := apply_columns (pct_change 1) ncols (values (bt_prices self)) in
  let portfolio_returns :=
    map (fun row => Some (nansum row))
        (frame_map2 fmul (values (bt_weights self)) asset_returns) in
  let equity_curve :=
    map (fun c => fmul c (Some (initial_capital self)))
        (cumprod (map (fadd (Some 1)) portfolio_returns)) in
  (mkDS (index (bt_weights self)) portfolio_returns,
   mkDS (index (bt_weights self)) equity_curve).

(** [Backtest.get_benchmark_returns]: [None] without a benchmark. *)
Definition get_benchmark_returns (self : Backtest) : option DatedSeries :=
  match benchmark_prices self with
  | None => None
  | Some b => Some (mkDS (ds_index b) (pct_change 1 (ds_values b)))
  end.

Section Metrics.

Variable fsqrt : Q -> Q.
Variable pow_frac : Q -> Q -> F.

(** [Backtest.calculate_metrics]: the dict is the list of its items. *)
Definition calculate_metrics (returns : Series) : list (string * F) :=
  let days := length returns in
  if (days <? 1)%nat then []
  else
    let total_return := nanprod (map (fun r => fadd r (Some 1)) returns) - 1 in
    let annualized_return :=
      fsub (power pow_frac (1 + total_return) (252 / inject_Z (Z.of_nat days)))
           (Some 1) in
    let annualized_vol := fmul (nanstd fsqrt returns) (Some (fsqrt 252)) in
    let rf := 6 # 100 in
    let daily_rf := fsub (power pow_frac (1 + rf) (1 / 252)) (Some 1) in
    let sharpe :=
      fmul (fdiv (fsub (nanmean returns) daily_rf) (nanstd fsqrt returns))
           (Some (fsqrt 252)) in
    let cum_returns := cumprod (map (fadd (Some 1)) returns) in
    let peak := cummax cum_returns in
    let drawdown := map2 fdiv (map2 fsub cum_returns peak) peak in
    let max_drawdown := nanmin drawdown in
    [ ("Total Return"%string, Some total_return);
      ("Annualized Return"%string, annualized_return);
      ("Volatility"%string, annualized_vol);
      ("Sharpe Ratio"%string, sharpe);
      ("Max Drawdown"%string, max_drawdown) ].

End Metrics.

(** Reading a dict. *)
Fixpoint dict_get (k : string) (d : list (string * F)) : option F :=
  match d with
  | [] => None
  | (k', v) :: t => if String.eqb k' k then Some v else dict_get k t
  end.

(** ** Well-formed inputs *)

Fixpoint unique_index (idx : list Date) : bool :=
  match idx with
  | [] => true
  | d :: t => negb (mem_date d t) && unique_index t
  end.

(** Strictly increasing dates, each a day of the calendar: the index of a
    price panel. *)
Fixpoint increasing_from (d : Date) (idx : list Date) : bool :=
  match idx with
  | [] => true
  | x :: t => date_ltb d x && increasing_from x t
  end.

Definition sorted_index (idx : list Date) : bool :=
  forallb valid_date idx &&
  match idx with
  | [] => true
  | d :: t => increasing_from d t
  end.

(** A frame has one row per date and one cell per column. *)
Definition well_shaped (ncols : nat) (idx : list Date) (rows : list Row) : bool :=
  (length rows =? length idx)%nat && forallb (fun r => (length r =? ncols)%nat) rows.

Definition wf_frame (df : DataFrame) : bool :=
  well_shaped (length (columns df)) (index df) (values df).

(** ** Vocabulary of the statements, and example inputs *)

(** The return of one asset over one day. *)
Definition asset_return (p_now p_prev : F) : F :=
  fsub (fdiv p_now p_prev) (Some 1).

(** A two-day panel of two assets, fully invested in the first asset. *)
Definition ex_bt_prices : DataFrame :=
  mkDF [mkDate 2024 1 2; mkDate 2024 1 3] ["A"; "B"]%string
       [[Some 100; Some 50]; [Some 110; Some 45]].

Definition ex_bt_weights : DataFrame :=
  mkDF [mkDate 2024 1 2; mkDate 2024 1 3] ["A"; "B"]%string
       [[Some 0; Some 0]; [Some 1; Some 0]].

(** The portfolio returns of [run] are numbers: the row sums. *)
Definition portfolio_returns_q (self : Backtest) : list Q :=
  map nansum
      (frame_map2 fmul (values (bt_weights self))
         (apply_columns (pct_change 1) (length (columns (bt_prices self)))
            (values (bt_prices self)))).

(** The price change of row [i], and its positive and negative parts; a
    change that is undefined counts for nothing. *)
Definition price_change (s : Series) (i : nat) : F :=
  fsub (nth i s NaN) (lagged 1 s i).

Definition up_move (c : F) : Q :=
  match c with
  | Some x => if Qgtb x 0 then x else 0
  | None => 0
  end.

Definition down_move (c : F) : Q :=
  match c with
  | Some x => - (if Qgtb 0 x then x else 0)
  | None => - 0
  end.

(** The changes of the [period] rows that end at row [t]. *)
Definition window_changes (s : Series) (period t : nat) : list F :=
  map (price_change s) (seq (S t - period) period).

Definition average (l : list Q) : Q := Qsum l / Qlen l.

Definition avg_gain (s : Series) (period t : nat) : Q :=
  average (map up_move (window_changes s period t)).

Definition avg_loss (s : Series) (period t : nat) : Q :=
  average (map down_move (window_changes s period t)).

Definition rsi_scale (ratio : Q) : Q := 100 - 100 / (1 + ratio).

(** The ratio of C4 as the specification words it, and the ratio of the
    code. *)
Definition ratio_claimed (s : Series) (period t : nat) : Q :=
  avg_gain s period t / (avg_gain s period t + avg_loss s period t + eps).

Definition ratio_rs (s : Series) (period t : nat) : Q :=
  avg_gain s period t / (avg_loss s period t + eps).

(** Fifteen prices that rise by one each day. *)
Definition ex_rising : Series :=
  map (fun k => Some (inject_Z (Z.of_nat k))) (seq 1 15).

(** A frame given by its cells. *)
Definition tabulate (n m : nat) (c : nat -> nat -> F) : list Row :=
  map (fun i => map (c i) (seq 0 m)) (seq 0 n).


(** An instance of C7 on one date and two assets. *)
Definition ex_mom : list Row := [[Some 1; Some 3]].
Definition ex_vol : list Row := [[Some 2; Some 1]].
Definition ex_rsi : list Row := [[Some 60; Some 40]].
Definition ex_val : list Row := [[Some (1 # 10); None]].

Definition increasing (idx : list Date) : bool :=
  match idx with
  | [] => true
  | d :: t => increasing_from d t
  end.

Definition valid_count (cols : list string) (row : Row) : nat :=
  length (dropna_labelled cols row).

(** The target weights of one monthly row: what [allocate_row] returns when
    it returns. *)
Definition target_row (cols : list string) (k : Z) (row : Row) : Row :=
  if (Z.of_nat (valid_count cols row) <? k)%Z then const_row (length cols) 0
  else map (fun c => if mem_label c (nlargest k (dropna_labelled cols row))
                     then Some (1 / inject_Z k) else Some 0) cols.

(** The decision taken on a trading day: the target weights of its month
    when the day is the calendar month-end, none otherwise. *)
Definition decision (cols : list string) (k : Z) (idx : list Date)
    (scores : list Row) (d : Date) : option Row :=
  if is_month_end d
  then Some (target_row cols k (monthly_row (length cols) idx scores (month_index d)))
  else None.

Definition last_decision (ds : list (option Row)) : option Row :=
  fold_left (fun acc d => match d with Some _ => d | None => acc end) ds None.

(** The weights held on the trading day at position [i]: the last decision
    taken on an earlier trading day, all zero when there is none. *)
Definition held (cols : list string) (k : Z) (idx : list Date)
    (scores : list Row) (i : nat) : Row :=
  match last_decision (map (decision cols k idx scores) (firstn i idx)) with
  | Some r => r
  | None => const_row (length cols) 0
  end.

Definition realize (ncols : nat) (o : option Row) : Row :=
  match o with Some r => r | None => nan_row ncols end.

Definition numbers_row (ncols : nat) (r : Row) : Prop :=
  length r = ncols /\ forall j, (j < ncols)%nat -> nth j r NaN <> None.

Fixpoint unique_labels (cols : list string) : bool :=
  match cols with
  | [] => true
  | c :: t => negb (mem_label c t) && unique_labels t
  end.

(** The number of valid scores of the month of a trading day, and whether a
    selection was made on that day: it is the calendar month-end and its
    month has at least K valid scores. *)
Definition month_valid_count (cols : list string) (idx : list Date)
    (scores : list Row) (d : Date) : nat :=
  valid_count cols (monthly_row (length cols) idx scores (month_index d)).

Definition selection_made (cols : list string) (k : Z) (idx : list Date)
    (scores : list Row) (d : Date) : bool :=
  is_month_end d && (k <=? Z.of_nat (month_valid_count cols idx scores d))%Z.

(** Three assets over five trading days.  January ends on a trading day
    with three valid scores; February ends on a trading day with one. *)
Definition ex_cols : list string := ["A"; "B"; "C"]%string.

Definition ex_idx : list Date :=
  [mkDate 2024 1 30; mkDate 2024 1 31; mkDate 2024 2 1; mkDate 2024 2 29;
   mkDate 2024 3 1].

Definition ex_scores : list Row :=
  [[Some 1; Some (1 # 2); Some (-1 # 2)];
   [Some 1; Some (1 # 2); Some (-1 # 2)];
   [None; None; Some 1];
   [None; None; Some 2];
   [Some 1; Some 2; Some 3]].

(** One asset; September 2023 ends on a Saturday. *)
Definition ex_weekend_idx : list Date :=
  [mkDate 2023 9 29; mkDate 2023 10 2; mkDate 2023 10 3].

Definition ex_weekend_scores : list Row := [[Some 1]; [Some 1]; [Some 1]].

(** Two assets on the same dates, both with a score on every date. *)
Definition ex_pair_cols : list string := ["A"; "B"]%string.

Definition ex_weekend_pair_scores : list Row :=
  [[Some 1; Some 2]; [Some 1; Some 2]; [Some 1; Some 2]].

(** A Series operation is causal when cutting its input after n rows cuts
    its output after n rows and changes nothing before. *)
Definition causal (f : Series -> Series) : Prop :=
  forall (s : Series) (n : nat), firstn n (f s) = f (firstn n s).

(** The first [n] rows of a frame, and a strategy on other prices. *)
Definition cut (n : nat) (df : DataFrame) : DataFrame :=
  mkDF (firstn n (index df)) (columns df) (firstn n (values df)).

Definition with_prices (self : SectorStrategy) (p : DataFrame) : SectorStrategy :=
  mkStrategy p (macro_data self) (top_k self) (momentum_period self)
             (volatility_period self) (rsi_period self) (value_period self).

(** The row of a macro panel on a date, as reindexing reads it. *)
Definition row_at (df : DataFrame) (d : Date) : Row :=
  match index_of d (index df) with
  | Some i => nth i (values df) (nan_row (length (columns df)))
  | None => nan_row (length (columns df))
  end.

(** Two macro panels that cannot be told apart on the dates of [idx]. *)
Definition macro_same_on (idx : list Date) (a b : option DataFrame) : Prop :=
  match a, b with
  | None, None => True
  | Some x, Some y =>
      columns x = columns y /\ forall d, In d idx -> row_at x d = row_at y d
  | _, _ => False
  end.

Definition date_leb (a b : Date) : bool := negb (date_ltb b a).

(** The rows of a frame dated [T] or earlier. *)
Definition upto (T : Date) (df : DataFrame) : list (Date * Row) :=
  filter (fun dr => date_leb (fst dr) T) (combine (index df) (values df)).

(** Two macro panels that agree on every date up to and including [T]. *)
Definition macro_agree_upto (T : Date) (a b : option DataFrame) : Prop :=
  match a, b with
  | None, None => True
  | Some x, Some y => columns x = columns y /\ upto T x = upto T y
  | _, _ => False
  end.

Definition map_result {A B} (f : A -> B) (r : Result A) : Result B :=
  match r with Ok a => Ok (f a) | Raise e => Raise e end.

(** Two price panels and two macro panels that agree up to 2024-01-31 and
    differ on the two days after. *)
Definition ex_dates : list Date :=
  [mkDate 2024 1 29; mkDate 2024 1 30; mkDate 2024 1 31; mkDate 2024 2 1;
   mkDate 2024 2 2].

Definition ex_prices_a : DataFrame :=
  mkDF ex_dates ["XIT"; "YAUTO"]%string
    [[Some 100; Some 50]; [Some 101; Some 52]; [Some 103; Some 51];
     [Some 104; Some 50]; [Some 105; Some 49]].

Definition ex_prices_b : DataFrame :=
  mkDF ex_dates ["XIT"; "YAUTO"]%string
    [[Some 100; Some 50]; [Some 101; Some 52]; [Some 103; Some 51];
     [Some 90; Some 70]; [Some 80; Some 90]].

Definition ex_macro_a : DataFrame :=
  mkDF ex_dates ["INR=X"; "CL=F"]%string
    [[Some 80; Some 70]; [Some 81; Some 71]; [Some 82; Some 72];
     [Some 83; Some 73]; [Some 84; Some 74]].

Definition ex_macro_b : DataFrame :=
  mkDF ex_dates ["INR=X"; "CL=F"]%string
    [[Some 80; Some 70]; [Some 81; Some 71]; [Some 82; Some 72];
     [Some 60; Some 90]; [Some 50; Some 95]].

(** The same strategy with short windows, so that five days are enough
    for a score. *)
Definition ex_short (p macro : DataFrame) : SectorStrategy :=
  mkStrategy p (Some macro) 1 1 2 1 2.

(** ** Vocabulary of the further properties *)

(** The price columns of the repository's loader for two of its sectors,
    over three days, with a macro panel that has both trend columns. *)
Definition ex_regime_strategy : SectorStrategy :=
  mkStrategy
    (mkDF [mkDate 2024 1 29; mkDate 2024 1 30; mkDate 2024 1 31]
          ["^CNXIT"; "^NSEBANK"]%string
          [[Some 100; Some 50]; [Some 101; Some 52]; [Some 103; Some 51]])
    (Some (mkDF [mkDate 2024 1 29; mkDate 2024 1 30; mkDate 2024 1 31]
                ["INR=X"; "CL=F"]%string
                [[Some 80; Some 70]; [Some 81; Some 71]; [Some 82; Some 72]]))
    1 252 126 14 1260.

(** A list of labelled scores in decreasing order of score. *)
Fixpoint desc_sorted (l : list (string * Q)) : Prop :=
  match l with
  | [] => True
  | x :: t => (forall y, In y t -> snd y <= snd x) /\ desc_sorted t
  end.

(** The day-over-day returns of a series of prices that are all numbers,
    from the price before the first. *)
Fixpoint rel_changes (prev : Q) (ps : list Q) : Series :=
  match ps with
  | [] => []
  | p :: t => asset_return (Some p) (Some prev) :: rel_changes p t
  end.

(** The number of assets a weight row holds: its entries that are not 0. *)
Definition invested (row : Row) : nat :=
  length (filter (fun x => match x with
                           | Some q => negb (Qeq_bool q 0)
                           | None => false
                           end) row).

(** ** Lists: general facts *)

Lemma mapi_from_length {A B} (f : nat -> A -> B) l i :
  length (mapi_from f i l) = length l.
Proof.
  revert i; induction l as [|x t IH]; intros i; simpl; [reflexivity|].
  now rewrite IH.
Qed.

Lemma mapi_length {A B} (f : nat -> A -> B) l : length (mapi f l) = length l.
Proof. apply mapi_from_length. Qed.

Lemma mapi_from_nth {A B} (f : nat -> A -> B) l i k dA dB :
  (k < length l)%nat ->
  nth k (mapi_from f i l) dB = f (i + k)%nat (nth k l dA).
Proof.
  revert i k; induction l as [|x t IH]; intros i k Hk; simpl in *; [lia|].
  destruct k as [|k].
  - now rewrite Nat.add_0_r.
  - rewrite (IH (S i) k) by lia. f_equal. lia.
Qed.

Lemma mapi_nth {A B} (f : nat -> A -> B) l k dA dB :
  (k < length l)%nat -> nth k (mapi f l) dB = f k (nth k l dA).
Proof. intros Hk. unfold mapi. now rewrite (mapi_from_nth f l 0 k dA dB Hk). Qed.

Lemma map2_length {A B C} (f : A -> B -> C) l1 l2 :
  length (map2 f l1 l2) = Nat.min (length l1) (length l2).
Proof.
  revert l2; induction l1 as [|x t IH]; intros [|y u]; simpl; try reflexivity.
  now rewrite IH.
Qed.

Lemma map2_nth {A B C} (f : A -> B -> C) l1 l2 k dA dB dC :
  (k < length l1)%nat -> (k < length l2)%nat ->
  nth k (map2 f l1 l2) dC = f (nth k l1 dA) (nth k l2 dB).
Proof.
  revert l2 k; induction l1 as [|x t IH]; intros [|y u] k H1 H2; simpl in *; try lia.
  destruct k as [|k]; [reflexivity|]. apply IH; lia.
Qed.

Lemma nth_map_lt {A B} (f : A -> B) l k dB dA :
  (k < length l)%nat -> nth k (map f l) dB = f (nth k l dA).
Proof.
  intros Hk. rewrite (nth_indep _ dB (f dA)) by now rewrite length_map.
  apply map_nth.
Qed.

Lemma nth_seq_map {B} (g : nat -> B) n k d :
  (k < n)%nat -> nth k (map g (seq 0 n)) d = g k.
Proof.
  intros Hk. rewrite (nth_indep _ d (g 0%nat)) by now rewrite length_map, length_seq.
  rewrite (map_nth g (seq 0 n) 0%nat k). now rewrite seq_nth.
Qed.

Lemma map_seq_nth {A} (l : list A) d :
  map (fun i => nth i l d) (seq 0 (length l)) = l.
Proof.
  apply (nth_ext _ _ d d).
  - now rewrite length_map, length_seq.
  - intros k Hk. rewrite length_map, length_seq in Hk. now rewrite nth_seq_map.
Qed.

(** ** Frames: general facts *)

Lemma apply_columns_length f ncols rows :
  length (apply_columns f ncols rows) = length rows.
Proof. unfold apply_columns. now rewrite length_map, length_seq. Qed.

Lemma apply_columns_row f ncols rows i d :
  (i < length rows)%nat ->
  nth i (apply_columns f ncols rows) d
  = map (fun j => nth i (f (column j rows)) NaN) (seq 0 ncols).
Proof. intros Hi. unfold apply_columns. now rewrite nth_seq_map. Qed.

Lemma column_length j rows : length (column j rows) = length rows.
Proof. unfold column. apply length_map. Qed.

Lemma column_nth j rows i :
  nth i (column j rows) NaN = nth j (nth i rows []) NaN.
Proof.
  unfold column. destruct (Nat.lt_ge_cases i (length rows)) as [Hi|Hi].
  - rewrite (nth_indep _ NaN (nth j [] NaN)) by now rewrite length_map.
    now rewrite (map_nth (fun r => nth j r NaN) rows [] i).
  - rewrite (nth_overflow (map _ rows)) by (rewrite length_map; lia).
    rewrite (nth_overflow rows) by lia. now destruct j.
Qed.

Lemma date_eqb_eq a b : date_eqb a b = true <-> a = b.
Proof.
  unfold date_eqb. destruct a as [y m d], b as [y' m' d']; simpl.
  rewrite !andb_true_iff, !Z.eqb_eq. split.
  - intros [[-> ->] ->]. reflexivity.
  - intros H. injection H as -> -> ->. auto.
Qed.

Lemma date_eqb_refl a : date_eqb a a = true.
Proof. now apply date_eqb_eq. Qed.

Lemma index_of_none d idx :
  index_of d idx = None -> forall x, In x idx -> date_eqb x d = false.
Proof.
  induction idx as [|y t IH]; simpl; intros H x Hx; [contradiction|].
  destruct (date_eqb y d) eqn:E; [discriminate|].
  destruct (index_of d t) eqn:E'; [discriminate|].
  destruct Hx as [->|Hx]; auto.
Qed.

Lemma index_of_nth idx i d0 :
  unique_index idx = true -> (i < length idx)%nat ->
  index_of (nth i idx d0) idx = Some i.
Proof.
  revert i; induction idx as [|x t IH]; intros i Hu Hi; simpl in *; [lia|].
  apply andb_true_iff in Hu as [Hx Hu].
  destruct i as [|i].
  - now rewrite date_eqb_refl.
  - assert (Hin : In (nth i t d0) t) by (apply nth_In; lia).
    unfold mem_date in Hx. destruct (index_of x t) eqn:E; [discriminate|].
    assert (Hne : date_eqb x (nth i t d0) = false).
    { destruct (date_eqb x (nth i t d0)) eqn:E2; auto.
      apply date_eqb_eq in E2. rewrite <- E2 in Hin.
      pose proof (index_of_none _ _ E x Hin) as H. now rewrite date_eqb_refl in H. }
    rewrite Hne, IH by (auto; lia). reflexivity.
Qed.

Lemma mem_date_in d idx : In d idx -> mem_date d idx = true.
Proof.
  unfold mem_date. intros H. destruct (index_of d idx) eqn:E; auto.
  pose proof (index_of_none _ _ E d H) as H'. now rewrite date_eqb_refl in H'.
Qed.

Lemma intersection_same idx : intersection idx idx = idx.
Proof.
  unfold intersection. apply forallb_filter_id.
  apply forallb_forall. intros d. apply mem_date_in.
Qed.

Lemma reindex_same ncols idx rows :
  unique_index idx = true -> length rows = length idx ->
  reindex ncols idx idx rows = rows.
Proof.
  intros Hu Hl. unfold reindex.
  apply (nth_ext _ _ (nan_row ncols) (nan_row ncols)).
  - now rewrite length_map.
  - intros k Hk. rewrite length_map in Hk.
    rewrite (nth_map_lt _ idx k _ (mkDate 0 0 0) Hk).
    now rewrite index_of_nth.
Qed.

Lemma map2_as_seq {A B C} (f : A -> B -> C) l1 l2 n dA dB :
  length l1 = n -> length l2 = n ->
  map2 f l1 l2 = map (fun j => f (nth j l1 dA) (nth j l2 dB)) (seq 0 n).
Proof.
  intros H1 H2. apply (nth_ext _ _ (f dA dB) (f dA dB)).
  - rewrite map2_length, length_map, length_seq. lia.
  - intros k Hk. rewrite map2_length in Hk.
    rewrite (map2_nth f l1 l2 k dA dB) by lia.
    rewrite nth_seq_map by lia. reflexivity.
Qed.

Lemma well_shaped_row ncols idx rows i :
  well_shaped ncols idx rows = true -> (i < length rows)%nat ->
  length (nth i rows []) = ncols.
Proof.
  unfold well_shaped. intros H Hi. apply andb_true_iff in H as [_ H].
  rewrite forallb_forall in H. apply Nat.eqb_eq, H, nth_In, Hi.
Qed.

Lemma well_shaped_length ncols idx rows :
  well_shaped ncols idx rows = true -> length rows = length idx.
Proof.
  unfold well_shaped. intros H. apply andb_true_iff in H as [H _].
  now apply Nat.eqb_eq.
Qed.

(** ** The Backtest engine *)

Lemma pct_change_1_nth s t :
  (t < length s)%nat ->
  nth t (pct_change 1 s) NaN
  = match t with
    | O => NaN
    | S t' => asset_return (nth t s NaN) (nth t' s NaN)
    end.
Proof.
  intros Ht. unfold pct_change. rewrite (mapi_nth _ s t NaN NaN Ht).
  unfold lagged, asset_return. destruct t as [|t']; simpl.
  - now destruct (nth 0 s NaN).
  - now rewrite Nat.sub_0_r.
Qed.

Lemma asset_returns_first ncols rows :
  (0 < length rows)%nat ->
  nth 0 (apply_columns (pct_change 1) ncols rows) [] = nan_row ncols.
Proof.
  intros H. rewrite apply_columns_row by assumption.
  rewrite (map_ext _ (fun _ => NaN)).
  - unfold nan_row. now rewrite map_const, length_seq.
  - intros j. now rewrite pct_change_1_nth by now rewrite column_length.
Qed.

Lemma asset_returns_row ncols idx rows t :
  well_shaped ncols idx rows = true -> (S t < length rows)%nat ->
  nth (S t) (apply_columns (pct_change 1) ncols rows) []
  = map2 asset_return (nth (S t) rows []) (nth t rows []).
Proof.
  intros Hw Ht. rewrite apply_columns_row by assumption.
  rewrite (map2_as_seq asset_return _ _ ncols NaN NaN)
    by (apply (well_shaped_row ncols idx); auto; lia).
  apply map_ext. intros j.
  rewrite pct_change_1_nth by (rewrite column_length; lia).
  now rewrite !column_nth.
Qed.

Lemma nansum_all_nan (w : Row) n : nansum (map2 fmul w (nan_row n)) = 0.
Proof.
  unfold nansum, nan_row. revert n; induction w as [|x t IH]; intros [|n]; simpl; auto.
  destruct x; simpl; apply IH.
Qed.

Lemma Backtest_init_aligned P W bench ic :
  index W = index P -> unique_index (index P) = true ->
  length (values P) = length (index P) ->
  length (values W) = length (index W) ->
  bt_prices (Backtest_init P W bench ic) = P /\
  bt_weights (Backtest_init P W bench ic) = W.
Proof.
  destruct P as [ip cp vp], W as [iw cw vw]; simpl.
  intros -> Hu HP HW. unfold Backtest_init, loc; simpl.
  rewrite intersection_same, !reindex_same by assumption. auto.
Qed.

(** C3, as stated, fails: on a price panel of n = 2 dates the returns series
    of [Backtest.run] has 2 entries, not n - 1 = 1, and its first date is the
    first date of the panel: the undefined first-day asset returns are
    skipped by the row sum, which gives 0 there. *)
Lemma run_keeps_first_date :
  let rets := fst (run (Backtest_init ex_bt_prices ex_bt_weights None 100000)) in
  length (index ex_bt_prices) = 2%nat /\
  length (ds_index rets) <> (2 - 1)%nat /\
  hd_error (ds_index rets) = hd_error (index ex_bt_prices) /\
  map (option_map Qred) (ds_values rets) = [Some 0; Some (1 # 10)].
Proof.
  vm_compute. repeat split; discriminate.
Qed.

(** C3, amended: on a price panel of n dates and a weight series on the
    same dates, the returns series of [Backtest.run] has the n dates of the
    panel (the first date is kept); its first entry is 0, and every later
    entry is the sum over the assets of
    [weight[t] * (price[t]/price[t-1] - 1)], a missing product counting
    as 0. *)
Theorem run_returns_series (P W : DataFrame) bench ic :
  index W = index P ->
  columns W = columns P ->
  unique_index (index P) = true ->
  wf_frame P = true ->
  length (values W) = length (index W) ->
  let rets := fst (run (Backtest_init P W bench ic)) in
  ds_index rets = index P /\
  length (ds_values rets) = length (index P) /\
  (forall t, (t < length (index P))%nat ->
     nth t (ds_values rets) NaN
     = match t with
       | O => Some 0
       | S t' =>
           Some (nansum (map2 fmul (nth t (values W) [])
                           (map2 asset_return (nth t (values P) [])
                                              (nth t' (values P) []))))
       end).
Proof.
  intros Hi Hc Hu Hw HW.
  pose proof (well_shaped_length _ _ _ Hw) as HP.
  destruct (Backtest_init_aligned P W bench ic Hi Hu HP HW) as [EP EW].
  unfold run. rewrite EP, EW. cbn [fst ds_index ds_values].
  rewrite Hi in HW.
  assert (Hlen : length (frame_map2 fmul (values W)
                   (apply_columns (pct_change 1) (length (columns P)) (values P)))
                 = length (index P)).
  { unfold frame_map2. rewrite map2_length, apply_columns_length. lia. }
  split; [assumption|]. split; [now rewrite length_map|].
  intros t Ht.
  rewrite (nth_map_lt _ _ t _ []) by lia.
  unfold frame_map2.
  rewrite (map2_nth _ _ _ t [] []) by (rewrite ?apply_columns_length; lia).
  destruct t as [|t'].
  - rewrite asset_returns_first by lia. now rewrite nansum_all_nan.
  - rewrite (asset_returns_row _ (index P)) by (auto; lia). reflexivity.
Qed.

Lemma run_returns_series_witness :
  let rets := fst (run (Backtest_init ex_bt_prices ex_bt_weights None 100000)) in
  ds_index rets = index ex_bt_prices /\
  length (ds_values rets) = 2%nat /\
  nth 1 (ds_values rets) NaN
  = Some (nansum (map2 fmul [Some 1; Some 0]
                    (map2 asset_return [Some 110; Some 45] [Some 100; Some 50]))).
Proof.
  destruct (run_returns_series ex_bt_prices ex_bt_weights None 100000
              eq_refl eq_refl eq_refl eq_refl eq_refl) as [H1 [H2 H3]].
  split; [exact H1|]. split; [exact H2|].
  exact (H3 1%nat (Nat.lt_succ_diag_r 1)).
Defined.

Lemma run_returns_numbers self :
  ds_values (fst (run self)) = map Some (portfolio_returns_q self).
Proof. unfold run, portfolio_returns_q. cbn [fst ds_values]. now rewrite map_map. Qed.

Lemma cumprod_from_numbers acc (qs : list Q) T :
  (T < length qs)%nat ->
  exists v,
    nth T (cumprod_from acc (map (fadd (Some 1)) (map Some qs))) NaN = Some v /\
    v == acc * Qprod (map (Qplus 1) (firstn (S T) qs)).
Proof.
  revert acc T; induction qs as [|q t IH]; intros acc T HT; simpl in HT; [lia|].
  destruct T as [|T].
  - exists (acc * (1 + q)). split; [reflexivity|].
    cbn [firstn map Qprod fold_right]. ring.
  - destruct (IH (acc * (1 + q)) T) as [v [Hv Ev]]; [lia|].
    exists v. split; [exact Hv|].
    rewrite Ev. change (firstn (S (S T)) (q :: t)) with (q :: firstn (S T) t).
    cbn [map Qprod fold_right]. fold (Qprod (map (Qplus 1) (firstn (S T) t))). ring.
Qed.

(** C8: at every date T of the returns series computed by [Backtest.run],
    the equity curve equals the initial capital times the product over all
    t <= T of (1 + portfolio_return[t]). *)
Theorem equity_curve_compounds (self : Backtest) (T : nat) :
  (T < length (ds_values (fst (run self))))%nat ->
  exists (rs : list Q) (e : Q),
    firstn (S T) (ds_values (fst (run self))) = map Some rs /\
    nth T (ds_values (snd (run self))) NaN = Some e /\
    e == initial_capital self * Qprod (map (Qplus 1) rs).
Proof.
  rewrite run_returns_numbers, length_map. intros HT.
  destruct (cumprod_from_numbers 1 (portfolio_returns_q self) T HT) as [v [Hv Ev]].
  exists (firstn (S T) (portfolio_returns_q self)), (v * initial_capital self).
  split; [now rewrite firstn_map|]. split.
  - unfold run. cbn [snd ds_values]. fold (portfolio_returns_q self).
    assert (E : map (fun row : Row => Some (nansum row))
                  (frame_map2 fmul (values (bt_weights self))
                     (apply_columns (pct_change 1)
                        (length (columns (bt_prices self)))
                        (values (bt_prices self))))
                = map Some (portfolio_returns_q self)).
    { unfold portfolio_returns_q. now rewrite map_map. }
    rewrite E.
    rewrite (nth_map_lt _ _ T _ NaN).
    + unfold cumprod. now rewrite Hv.
    + unfold cumprod.
      assert (L : forall a s, length (cumprod_from a s) = length s).
      { intros a s; revert a; induction s as [|[x|] s IHs]; intros a; simpl; auto. }
      now rewrite L, !length_map.
  - rewrite Ev. ring.
Qed.

Lemma equity_curve_compounds_witness :
  exists (rs : list Q) (e : Q),
    firstn 2 (ds_values (fst (run (Backtest_init ex_bt_prices ex_bt_weights None 100000))))
    = map Some rs /\
    nth 1 (ds_values (snd (run (Backtest_init ex_bt_prices ex_bt_weights None 100000)))) NaN
    = Some e /\
    e == 100000 * Qprod (map (Qplus 1) rs).
Proof.
  apply (equity_curve_compounds
           (Backtest_init ex_bt_prices ex_bt_weights None 100000) 1).
  vm_compute. reflexivity.
Defined.

Section MetricsFacts.

Variable fsqrt : Q -> Q.
Variable pow_frac : Q -> Q -> F.

(** C9: on a returns series of length zero [calculate_metrics] returns the
    empty dict; on a series of length at least one it returns a dict with
    its five entries.  The function is total: it raises nothing. *)
Theorem calculate_metrics_empty_or_populated :
  calculate_metrics fsqrt pow_frac [] = [] /\
  forall (r : F) (rs : Series),
    map fst (calculate_metrics fsqrt pow_frac (r :: rs))
    = ["Total Return"; "Annualized Return"; "Volatility"; "Sharpe Ratio";
       "Max Drawdown"]%string.
Proof. split; [reflexivity|]. intros r rs. reflexivity. Qed.

Lemma power_252 (x : Q) :
  power pow_frac x (252 / inject_Z (Z.of_nat 1)) = Some (x ^ 252).
Proof.
  unfold power.
  change (Qred (252 / inject_Z (Z.of_nat 1))) with (252 # 1).
  cbn [Qden Qnum Pos.eqb]. now rewrite andb_false_r.
Qed.

Lemma fdiv_nan_r (a : F) : fdiv a NaN = NaN.
Proof. now destruct a. Qed.

(** C10: on a returns series with the single value r, Total Return is r,
    Annualized Return is (1+r)^252 - 1, and the Volatility and Sharpe Ratio
    entries are NaN: the sample standard deviation of one observation is
    undefined. *)
Theorem calculate_metrics_single (r : Q) :
  exists (tr ar : Q) (md : F),
    calculate_metrics fsqrt pow_frac [Some r]
    = [ ("Total Return"%string, Some tr);
        ("Annualized Return"%string, Some ar);
        ("Volatility"%string, NaN);
        ("Sharpe Ratio"%string, NaN);
        ("Max Drawdown"%string, md) ] /\
    tr == r /\ ar == (1 + r) ^ 252 - 1.
Proof.
  exists ((r + 1) * 1 - 1), ((1 + ((r + 1) * 1 - 1)) ^ 252 - 1).
  eexists. split; [|split].
  - unfold calculate_metrics.
    cbn [length Nat.ltb Nat.leb map nanprod dropna fadd lift2 Qprod fold_right].
    rewrite power_252.
    change (nanstd fsqrt [Some r]) with NaN.
    rewrite fdiv_nan_r. reflexivity.
  - ring.
  - assert (E : 1 + ((r + 1) * 1 - 1) == 1 + r) by ring. now rewrite E.
Qed.

End MetricsFacts.

(** ** The trend oscillator *)

Lemma firstn_seq_le p b m : (p <= m)%nat -> firstn p (seq b m) = seq b p.
Proof.
  revert b m; induction p as [|p IH]; intros b m H; [reflexivity|].
  destruct m as [|m]; [lia|]. simpl. f_equal. apply IH. lia.
Qed.

Lemma firstn_skipn_map_seq {B} (g : nat -> B) a p n :
  (a + p <= n)%nat ->
  firstn p (skipn a (map g (seq 0 n))) = map g (seq a p).
Proof.
  intros H. rewrite skipn_map, firstn_map, skipn_seq, firstn_seq_le by lia.
  reflexivity.
Qed.

Lemma mapi_as_seq {A B} (f : nat -> A -> B) l d :
  mapi f l = map (fun i => f i (nth i l d)) (seq 0 (length l)).
Proof.
  apply (nth_ext _ _ (f 0%nat d) (f 0%nat d)).
  - now rewrite mapi_length, length_map, length_seq.
  - intros k Hk. rewrite mapi_length in Hk.
    rewrite (mapi_nth f l k d) by assumption. now rewrite nth_seq_map.
Qed.

Lemma gains_numbers s :
  where_ (fun d => fgt d (Some 0)) (Some 0) (diff s)
  = map (fun i => Some (up_move (price_change s i))) (seq 0 (length s)).
Proof.
  unfold where_, diff. rewrite (mapi_as_seq _ s NaN), map_map.
  apply map_ext. intros i. fold (price_change s i).
  unfold up_move, fgt, Qgtb. destruct (price_change s i) as [x|]; [|reflexivity].
  now destruct (Qle_bool x 0).
Qed.

Lemma losses_numbers s :
  map fneg (where_ (fun d => flt d (Some 0)) (Some 0) (diff s))
  = map (fun i => Some (down_move (price_change s i))) (seq 0 (length s)).
Proof.
  unfold where_, diff. rewrite (mapi_as_seq _ s NaN), !map_map.
  apply map_ext. intros i. fold (price_change s i).
  unfold down_move, flt, fgt, Qgtb. destruct (price_change s i) as [x|]; [|reflexivity].
  now destruct (Qle_bool 0 x).
Qed.

Lemma dropna_numbers (l : list Q) : dropna (map Some l) = l.
Proof. induction l; simpl; congruence. Qed.

Lemma full_window_numbers (l : list Q) : full_window (map Some l) = true.
Proof. unfold full_window. induction l; simpl; auto. Qed.

Lemma window_mean_numbers (l : list Q) :
  l <> [] -> window_mean (map Some l) = Some (average l).
Proof.
  intros H. unfold window_mean, nanmean.
  rewrite full_window_numbers, dropna_numbers. destruct l; [contradiction|reflexivity].
Qed.

(** A rolling mean over a Series of numbers [g 0, g 1, ...]. *)
Lemma rolling_mean_numbers (g : nat -> Q) n period t :
  (1 <= period)%nat -> (period <= S t)%nat -> (t < n)%nat ->
  nth t (rolling period window_mean (map (fun i => Some (g i)) (seq 0 n))) NaN
  = Some (average (map g (seq (S t - period) period))).
Proof.
  intros Hp Ht Hn. unfold rolling.
  rewrite (mapi_nth _ _ t NaN NaN) by now rewrite length_map, length_seq.
  replace (S t <? period)%nat with false by (symmetry; apply Nat.ltb_ge; lia).
  unfold trailing. rewrite firstn_skipn_map_seq by lia.
  rewrite <- (map_map g Some). apply window_mean_numbers.
  destruct period; [lia|]. simpl. discriminate.
Qed.

Lemma Qsum_nonneg (l : list Q) : (forall x, In x l -> 0 <= x) -> 0 <= Qsum l.
Proof.
  induction l as [|x t IH]; intros H; simpl.
  - apply Qle_refl.
  - rewrite <- (Qplus_0_r 0). apply Qplus_le_compat.
    + apply H. now left.
    + apply IH. intros y Hy. apply H. now right.
Qed.

Lemma average_nonneg (l : list Q) : (forall x, In x l -> 0 <= x) -> 0 <= average l.
Proof.
  intros H. unfold average, Qdiv. apply Qmult_le_0_compat.
  - now apply Qsum_nonneg.
  - apply Qinv_le_0_compat. unfold Qlen, Qle. simpl. lia.
Qed.

Lemma up_move_nonneg c : 0 <= up_move c.
Proof.
  unfold up_move, Qgtb. destruct c as [x|]; [|apply Qle_refl].
  destruct (Qle_bool x 0) eqn:E; simpl; [apply Qle_refl|].
  apply Qlt_le_weak, Qnot_le_lt. intros H. apply Qle_bool_iff in H. congruence.
Qed.

Lemma down_move_nonneg c : 0 <= down_move c.
Proof.
  unfold down_move, Qgtb. destruct c as [x|]; [|discriminate].
  destruct (Qle_bool 0 x) eqn:E; simpl; [discriminate|].
  assert (H : x < 0).
  { apply Qnot_le_lt. intros H. apply Qle_bool_iff in H. congruence. }
  apply Qlt_le_weak in H. apply Qopp_le_compat in H. exact H.
Qed.

Lemma avg_gain_nonneg s period t : 0 <= avg_gain s period t.
Proof.
  apply average_nonneg. intros x Hx. apply in_map_iff in Hx as [c [<- _]].
  apply up_move_nonneg.
Qed.

Lemma avg_loss_nonneg s period t : 0 <= avg_loss s period t.
Proof.
  apply average_nonneg. intros x Hx. apply in_map_iff in Hx as [c [<- _]].
  apply down_move_nonneg.
Qed.

Lemma fdiv_pos (x y : Q) : 0 < y -> fdiv (Some x) (Some y) = Some (x / y).
Proof.
  intros H. unfold fdiv. destruct (Qeq_bool y 0) eqn:E; [|reflexivity].
  apply Qeq_bool_eq in E. rewrite E in H. now apply Qlt_irrefl in H.
Qed.

Lemma eps_pos : 0 < eps.
Proof. reflexivity. Qed.

(** C4, as stated, fails: on fifteen prices that rise by one a day the
    average gain is 1 and the average loss 0, the code answers
    100 - 100/(1 + 1/eps), about 99.9999, and the ratio of the claim,
    gain / (gain + loss + eps), would give about 50. *)
Lemma rsi_is_not_the_claimed_ratio :
  exists v : Q,
    nth 14 (calculate_rsi ex_rising 14) NaN = Some v /\
    ~ v == rsi_scale (ratio_claimed ex_rising 14 14).
Proof.
  eexists. split; [vm_compute; reflexivity|].
  vm_compute. discriminate.
Qed.

(** C4, amended: at every date with at least [period] = 14 prior
    observations the trend oscillator is 100 - 100/(1 + rs), where rs is the
    trailing average of the positive price changes divided by (the trailing
    average magnitude of the negative changes plus eps = 1e-6): the average
    gain is not part of the denominator. *)
Theorem calculate_rsi_formula (s : Series) (period t : nat) :
  (1 <= period)%nat -> (period <= t)%nat -> (t < length s)%nat ->
  nth t (calculate_rsi s period) NaN = Some (rsi_scale (ratio_rs s period t)).
Proof.
  intros Hp Ht Hl. unfold calculate_rsi.
  rewrite gains_numbers, losses_numbers.
  set (gain := rolling period window_mean _).
  set (loss := rolling period window_mean _).
  assert (Lg : length gain = length s).
  { unfold gain, rolling. now rewrite mapi_length, length_map, length_seq. }
  assert (Ll : length loss = length s).
  { unfold loss, rolling. now rewrite mapi_length, length_map, length_seq. }
  rewrite (nth_map_lt _ _ t _ NaN) by (rewrite map2_length, length_map; lia).
  rewrite (map2_nth _ _ _ t NaN NaN) by (rewrite ?length_map; lia).
  rewrite (nth_map_lt _ _ t _ NaN) by lia.
  unfold gain, loss.
  rewrite (rolling_mean_numbers (fun i => up_move (price_change s i))) by lia.
  rewrite (rolling_mean_numbers (fun i => down_move (price_change s i))) by lia.
  rewrite <- (map_map (price_change s) up_move).
  rewrite <- (map_map (price_change s) down_move).
  fold (window_changes s period t).
  fold (avg_gain s period t). fold (avg_loss s period t).
  pose proof (avg_gain_nonneg s period t) as Hg.
  pose proof (avg_loss_nonneg s period t) as Hlo.
  cbn [fadd lift2].
  assert (Hden : 0 < avg_loss s period t + eps).
  { rewrite <- (Qplus_0_l 0), (Qplus_comm (avg_loss s period t)).
    apply Qplus_lt_le_compat; [apply eps_pos|assumption]. }
  rewrite fdiv_pos by assumption. cbn [fadd lift2].
  assert (Hrs : 0 <= avg_gain s period t / (avg_loss s period t + eps)).
  { unfold Qdiv. apply Qmult_le_0_compat; [assumption|].
    apply Qinv_le_0_compat. now apply Qlt_le_weak. }
  rewrite fdiv_pos.
  - reflexivity.
  - rewrite <- (Qplus_0_r 0). apply Qplus_lt_le_compat; [reflexivity|assumption].
Qed.

Lemma calculate_rsi_formula_witness :
  nth 14 (calculate_rsi ex_rising 14) NaN = Some (rsi_scale (ratio_rs ex_rising 14 14)).
Proof.
  apply (calculate_rsi_formula ex_rising 14 14); [lia | lia | simpl; lia].
Defined.

(** ** The composite score *)

Lemma tabulate_cell n m c i j :
  (i < n)%nat -> (j < m)%nat -> cell (tabulate n m c) i j = c i j.
Proof.
  intros Hi Hj. unfold cell, tabulate. now rewrite nth_seq_map, nth_seq_map.
Qed.

Lemma well_shaped_tabulate ncols idx t :
  well_shaped ncols idx t = true -> t = tabulate (length idx) ncols (cell t).
Proof.
  intros H. pose proof (well_shaped_length _ _ _ H) as Hl.
  unfold tabulate. rewrite <- Hl.
  rewrite <- (map_seq_nth t []) at 1.
  apply map_ext_in. intros i Hi. apply in_seq in Hi.
  pose proof (well_shaped_row _ _ _ i H ltac:(lia)) as Hr.
  rewrite <- Hr. unfold cell. now rewrite map_seq_nth.
Qed.

Lemma map_as_seq {A B} (f : A -> B) l d :
  map f l = map (fun j => f (nth j l d)) (seq 0 (length l)).
Proof. now rewrite <- (map_map (fun j => nth j l d) f), map_seq_nth. Qed.

Lemma map2_map_same {X A B C} (f : A -> B -> C) (g1 : X -> A) (g2 : X -> B) l :
  map2 f (map g1 l) (map g2 l) = map (fun x => f (g1 x) (g2 x)) l.
Proof. induction l; simpl; congruence. Qed.

Lemma frame_map2_tabulate op n m c1 c2 :
  frame_map2 op (tabulate n m c1) (tabulate n m c2)
  = tabulate n m (fun i j => op (c1 i j) (c2 i j)).
Proof.
  unfold frame_map2, tabulate. rewrite map2_map_same.
  apply map_ext. intros i. apply map2_map_same.
Qed.

Lemma frame_scale_tabulate q n m c :
  frame_scale q (tabulate n m c) = tabulate n m (fun i j => fmul (Some q) (c i j)).
Proof.
  unfold frame_scale, tabulate. rewrite map_map. apply map_ext. intros i.
  now rewrite map_map.
Qed.

Lemma frame_neg_tabulate n m c :
  frame_neg (tabulate n m c) = tabulate n m (fun i j => fneg (c i j)).
Proof.
  unfold frame_neg, tabulate. rewrite map_map. apply map_ext. intros i.
  now rewrite map_map.
Qed.

Section CompositeFacts.

Variable fsqrt : Q -> Q.

Lemma zscore_tabulate ncols idx t :
  well_shaped ncols idx t = true ->
  zscore fsqrt t = tabulate (length idx) ncols (zscore_cell fsqrt t).
Proof.
  intros H. pose proof (well_shaped_length _ _ _ H) as Hl.
  unfold zscore, tabulate. rewrite <- Hl.
  rewrite <- (map_seq_nth t []) at 1. rewrite map_map.
  apply map_ext_in. intros i Hi. apply in_seq in Hi.
  pose proof (well_shaped_row _ _ _ i H ltac:(lia)) as Hr.
  unfold zscore_row, zscore_cell, cell.
  rewrite (map_as_seq _ (nth i t []) NaN), Hr. reflexivity.
Qed.

(** C7: the composite score at each (date, asset) is
    0.3*z_momentum + 0.3*(-z_value) + 0.2*z_rsi + 0.2*(-z_volatility), each z
    the cross-sectional z-score of its factor table; a Regime Overlay that
    is present is added to it cell by cell, as it is. *)
Theorem composite_score_formula (ncols : nat) (idx : list Date)
    (mom vol rsi val : list Row) (i j : nat) :
  well_shaped ncols idx mom = true ->
  well_shaped ncols idx vol = true ->
  well_shaped ncols idx rsi = true ->
  well_shaped ncols idx val = true ->
  (i < length idx)%nat -> (j < ncols)%nat ->
  cell (composite fsqrt mom vol rsi val None) i j
  = composite_cell fsqrt mom vol rsi val i j /\
  forall boost : list Row,
    well_shaped ncols idx boost = true ->
    cell (composite fsqrt mom vol rsi val (Some boost)) i j
    = fadd (composite_cell fsqrt mom vol rsi val i j) (cell boost i j).
Proof.
  intros Hm Hv Hr Hl Hi Hj. unfold composite.
  rewrite (zscore_tabulate _ _ _ Hm), (zscore_tabulate _ _ _ Hv),
          (zscore_tabulate _ _ _ Hr), (zscore_tabulate _ _ _ Hl).
  rewrite !frame_neg_tabulate, !frame_scale_tabulate, !frame_map2_tabulate.
  split.
  - now rewrite tabulate_cell.
  - intros boost Hb. rewrite (well_shaped_tabulate _ _ _ Hb) at 1.
    rewrite frame_map2_tabulate. now rewrite tabulate_cell.
Qed.

End CompositeFacts.

Lemma composite_score_formula_witness :
  cell (composite (fun x => x) ex_mom ex_vol ex_rsi ex_val None) 0 1
  = composite_cell (fun x => x) ex_mom ex_vol ex_rsi ex_val 0 1 /\
  forall boost : list Row,
    well_shaped 2 [mkDate 2024 1 31] boost = true ->
    cell (composite (fun x => x) ex_mom ex_vol ex_rsi ex_val (Some boost)) 0 1
    = fadd (composite_cell (fun x => x) ex_mom ex_vol ex_rsi ex_val 0 1)
           (cell boost 0 1).
Proof.
  apply (composite_score_formula (fun x => x) 2 [mkDate 2024 1 31]
           ex_mom ex_vol ex_rsi ex_val 0 1);
    first [reflexivity | simpl; lia].
Defined.

(** ** The calendar *)

Lemma month_index_month_end mi : month_index (month_end mi) = mi.
Proof.
  unfold month_index, month_end; simpl.
  pose proof (Z.div_mod mi 12 ltac:(lia)). lia.
Qed.

Lemma is_month_end_eq d : is_month_end d = true -> d = month_end (month_index d).
Proof. unfold is_month_end. apply date_eqb_eq. Qed.

Lemma month_end_is_month_end mi : is_month_end (month_end mi) = true.
Proof. unfold is_month_end. rewrite month_index_month_end. apply date_eqb_refl. Qed.

Lemma date_ltb_trans a b c :
  date_ltb a b = true -> date_ltb b c = true -> date_ltb a c = true.
Proof.
  unfold date_ltb. destruct a as [y1 m1 d1], b as [y2 m2 d2], c as [y3 m3 d3]; simpl.
  rewrite !orb_true_iff, !andb_true_iff, !orb_true_iff, !andb_true_iff,
          !Z.ltb_lt, !Z.eqb_eq. lia.
Qed.

Lemma date_ltb_irrefl a : date_ltb a a = false.
Proof.
  unfold date_ltb. destruct a as [y m d]; simpl.
  rewrite !Z.ltb_irrefl, !Z.eqb_refl. reflexivity.
Qed.

Lemma valid_date_bounds d :
  valid_date d = true ->
  (1 <= month d <= 12 /\ 1 <= day d <= days_in_month (year d) (month d))%Z.
Proof.
  unfold valid_date. rewrite !andb_true_iff, !Z.leb_le. tauto.
Qed.

Lemma month_index_mono a b :
  valid_date a = true -> valid_date b = true -> date_ltb a b = true ->
  (month_index a <= month_index b)%Z.
Proof.
  intros Ha Hb. apply valid_date_bounds in Ha, Hb.
  unfold date_ltb, month_index.
  rewrite !orb_true_iff, !andb_true_iff, !orb_true_iff, !andb_true_iff,
          !Z.ltb_lt, !Z.eqb_eq. lia.
Qed.

(** Nothing of a month comes after its last day. *)
Lemma nothing_after_month_end a b :
  valid_date b = true -> is_month_end a = true ->
  month_index b = month_index a -> date_ltb a b = false.
Proof.
  intros Hb Ha Hm. apply valid_date_bounds in Hb. apply is_month_end_eq in Ha.
  destruct (date_ltb a b) eqn:E; [|reflexivity].
  assert (Hy : year b = year a /\ month b = month a).
  { revert E. unfold date_ltb, month_index in *.
    rewrite !orb_true_iff, !andb_true_iff, !orb_true_iff, !andb_true_iff,
            !Z.ltb_lt, !Z.eqb_eq. intros E.
    assert (1 <= month a <= 12)%Z.
    { rewrite Ha. unfold month_end; simpl.
      pose proof (Z.mod_pos_bound (year a * 12 + (month a - 1)) 12 ltac:(lia)).
      unfold month_index. lia. }
    lia. }
  destruct Hy as [Hy Hmo].
  assert (Hd : day a = days_in_month (year a) (month a)).
  { rewrite Ha at 1. unfold month_end; simpl.
    f_equal.
    - change (year (month_end (month_index a)) = year a). now rewrite <- Ha.
    - change (month (month_end (month_index a)) = month a). now rewrite <- Ha. }
  revert E. unfold date_ltb.
  rewrite !orb_true_iff, !andb_true_iff, !orb_true_iff, !andb_true_iff,
          !Z.ltb_lt, !Z.eqb_eq. rewrite Hy, Hmo in Hb. lia.
Qed.

Lemma sorted_index_split idx :
  sorted_index idx = true -> forallb valid_date idx = true /\ increasing idx = true.
Proof. unfold sorted_index, increasing. now rewrite andb_true_iff. Qed.

Lemma increasing_from_all d l :
  increasing_from d l = true -> forall x, In x l -> date_ltb d x = true.
Proof.
  revert d; induction l as [|y t IH]; intros d H x Hx; simpl in *; [contradiction|].
  apply andb_true_iff in H as [H1 H2]. destruct Hx as [->|Hx]; [assumption|].
  eapply date_ltb_trans; [exact H1|]. now apply IH.
Qed.

Lemma increasing_tail d t : increasing (d :: t) = true -> increasing t = true.
Proof.
  simpl. destruct t as [|x t']; simpl; [reflexivity|].
  rewrite andb_true_iff. tauto.
Qed.

Lemma increasing_nth_lt idx i j d0 :
  increasing idx = true -> (i < j)%nat -> (j < length idx)%nat ->
  date_ltb (nth i idx d0) (nth j idx d0) = true.
Proof.
  revert i j; induction idx as [|d t IH]; intros i j H Hij Hj; simpl in Hj; [lia|].
  destruct j as [|j]; [lia|]. destruct i as [|i]; simpl.
  - apply (increasing_from_all d t H). apply nth_In. lia.
  - apply IH; [now apply increasing_tail in H | lia | lia].
Qed.

Lemma sorted_valid idx d :
  sorted_index idx = true -> In d idx -> valid_date d = true.
Proof.
  intros H Hd. apply sorted_index_split in H as [H _].
  rewrite forallb_forall in H. now apply H.
Qed.

Lemma sorted_unique idx : increasing idx = true -> unique_index idx = true.
Proof.
  induction idx as [|d t IH]; intros H; [reflexivity|].
  simpl. rewrite IH by now apply increasing_tail in H. rewrite andb_true_r.
  unfold mem_date. destruct (index_of d t) as [p|] eqn:E; [|reflexivity].
  exfalso. clear IH.
  assert (Hin : exists x, In x t /\ date_eqb x d = true).
  { clear H. revert p E. induction t as [|y u IHu]; intros p E; simpl in E; [discriminate|].
    destruct (date_eqb y d) eqn:Ey.
    - exists y. split; [now left|assumption].
    - destruct (index_of d u) eqn:Eu; [|discriminate].
      destruct (IHu n eq_refl) as [x [Hx Hxd]]. exists x. split; [now right|assumption]. }
  destruct Hin as [x [Hx Hxd]]. apply date_eqb_eq in Hxd. subst x.
  pose proof (increasing_from_all d t H d Hx) as Hlt.
  now rewrite date_ltb_irrefl in Hlt.
Qed.

Lemma last_as_nth {A} (l : list A) d : last l d = nth (length l - 1) l d.
Proof.
  induction l as [|x t IH]; [reflexivity|].
  destruct t as [|y u]; [reflexivity|].
  change (last (x :: y :: u) d) with (last (y :: u) d). rewrite IH.
  simpl. now rewrite Nat.sub_0_r.
Qed.

(** The months of a sorted index lie between its first and its last. *)
Lemma month_index_range idx d0 d :
  sorted_index idx = true -> In d idx ->
  (month_index (hd d0 idx) <= month_index d <= month_index (last idx d0))%Z.
Proof.
  intros Hs Hd. pose proof (sorted_index_split _ Hs) as [_ Hinc].
  destruct (In_nth idx d d0 Hd) as [i [Hi Ei]].
  assert (Hn : (0 < length idx)%nat) by lia.
  assert (E0 : hd d0 idx = nth 0 idx d0) by (destruct idx; reflexivity).
  assert (El : last idx d0 = nth (length idx - 1) idx d0) by apply last_as_nth.
  assert (Hv : forall k, (k < length idx)%nat -> valid_date (nth k idx d0) = true).
  { intros k Hk. apply (sorted_valid idx); [assumption|now apply nth_In]. }
  rewrite E0, El, <- Ei. split.
  - destruct i as [|i]; [lia|].
    apply month_index_mono; try apply Hv; try lia. apply increasing_nth_lt; auto; lia.
  - destruct (Nat.eq_dec i (length idx - 1)) as [->|Hne]; [lia|].
    apply month_index_mono; try apply Hv; try lia. apply increasing_nth_lt; auto; lia.
Qed.

Lemma index_of_none_intro d l :
  (forall x, In x l -> date_eqb x d = false) -> index_of d l = None.
Proof.
  induction l as [|y t IH]; intros H; simpl; [reflexivity|].
  rewrite (H y) by now left. rewrite IH; [reflexivity|].
  intros x Hx. apply H. now right.
Qed.

Lemma index_of_month_end mi m0 a n :
  (m0 + Z.of_nat a <= mi < m0 + Z.of_nat a + Z.of_nat n)%Z ->
  index_of (month_end mi)
           (map month_end (map (fun k => (m0 + Z.of_nat k)%Z) (seq a n)))
  = Some (Z.to_nat (mi - m0) - a)%nat.
Proof.
  revert a; induction n as [|n IH]; intros a H; [lia|].
  simpl. destruct (date_eqb (month_end (m0 + Z.of_nat a)) (month_end mi)) eqn:E.
  - apply date_eqb_eq in E. apply (f_equal month_index) in E.
    rewrite !month_index_month_end in E. f_equal. lia.
  - assert (Hne : (m0 + Z.of_nat a)%Z <> mi).
    { intros Heq. rewrite Heq, date_eqb_refl in E. discriminate. }
    rewrite IH by lia. simpl. f_equal. lia.
Qed.

(** Reindexing the monthly table on a trading day: the row of the day's
    month when the day is the calendar month-end, nothing otherwise. *)
Lemma reindex_monthly (g : Z -> Row) idx d fill :
  sorted_index idx = true -> In d idx ->
  match index_of d (map month_end (month_bins idx)) with
  | Some p => nth p (map g (month_bins idx)) fill
  | None => fill
  end
  = if is_month_end d then g (month_index d) else fill.
Proof.
  intros Hs Hd. destruct idx as [|d0 t] eqn:Eidx; [contradiction|].
  rewrite <- Eidx in *.
  pose proof (month_index_range idx d0 d Hs Hd) as Hr.
  assert (Eb : month_bins idx
               = map (fun k => (month_index d0 + Z.of_nat k)%Z)
                     (seq 0 (Z.to_nat (month_index (last idx d0) - month_index d0 + 1)))).
  { rewrite Eidx. reflexivity. }
  assert (Eh : hd d0 idx = d0) by now rewrite Eidx.
  rewrite Eh in Hr. rewrite Eb.
  set (n := Z.to_nat (month_index (last idx d0) - month_index d0 + 1)).
  destruct (is_month_end d) eqn:Em.
  - pose proof (is_month_end_eq d Em) as Ed.
    rewrite Ed at 1. rewrite (index_of_month_end _ _ 0 n) by (unfold n; lia).
    rewrite Nat.sub_0_r, map_map.
    rewrite nth_seq_map by (unfold n; lia). f_equal. lia.
  - rewrite index_of_none_intro; [reflexivity|].
    intros x Hx. apply in_map_iff in Hx as [mi [<- _]].
    destruct (date_eqb (month_end mi) d) eqn:E; [|reflexivity].
    apply date_eqb_eq in E. subst d. now rewrite month_end_is_month_end in Em.
Qed.

(** ** The Allocator *)

Lemma allocate_row_ok cols k row :
  k <> 0%Z -> allocate_row cols k row = Ok (target_row cols k row).
Proof.
  intros Hk. unfold allocate_row, target_row, valid_count.
  destruct (Z.of_nat _ <? k)%Z; [reflexivity|].
  destruct (k =? 0)%Z eqn:E; [apply Z.eqb_eq in E; contradiction|reflexivity].
Qed.

Lemma mapM_total {A B} (f : A -> Result B) (g : A -> B) l :
  (forall x, f x = Ok (g x)) -> mapM f l = Ok (map g l).
Proof.
  intros H. induction l as [|x t IH]; simpl; [reflexivity|].
  now rewrite H, IH.
Qed.

Lemma const_row_numbers n v : numbers_row n (const_row n v).
Proof.
  unfold numbers_row, const_row. split; [apply repeat_length|].
  intros j Hj. rewrite nth_repeat_lt by assumption. discriminate.
Qed.

Lemma target_row_numbers cols k row : numbers_row (length cols) (target_row cols k row).
Proof.
  unfold target_row. destruct (_ <? k)%Z; [apply const_row_numbers|].
  split; [apply length_map|]. intros j Hj.
  rewrite (nth_map_lt _ cols j NaN EmptyString Hj).
  destruct (mem_label _ _); discriminate.
Qed.

Lemma ffill_from_nth acc s i :
  (i < length s)%nat ->
  nth i (ffill_from acc s) NaN
  = fold_left (fun a x => match x with Some _ => x | None => a end)
              (firstn (S i) s) acc.
Proof.
  revert acc i; induction s as [|x t IH]; intros acc i Hi; simpl in Hi; [lia|].
  destruct i as [|i].
  - simpl. now destruct x.
  - change (firstn (S (S i)) (x :: t)) with (x :: firstn (S i) t).
    simpl fold_left. simpl ffill_from. simpl nth. rewrite IH by lia.
    now destruct x.
Qed.

Lemma ffill_nth s i :
  (i < length s)%nat -> nth i (ffill s) NaN = last_valid (firstn (S i) s).
Proof. apply ffill_from_nth. Qed.

Lemma last_decision_in ds r : last_decision ds = Some r -> In (Some r) ds.
Proof.
  unfold last_decision.
  assert (G : forall acc, fold_left (fun a d => match d with Some _ => d | None => a end)
                            ds acc = Some r -> acc = Some r \/ In (Some r) ds).
  { induction ds as [|d t IH]; intros acc H; simpl in *; [now left|].
    destruct (IH _ H) as [E|E]; [|now right; right].
    destruct d as [r'|]; [right; left; exact E|now left]. }
  intros H. destruct (G None H) as [E|E]; [discriminate|assumption].
Qed.

(** Forward fill of one column of a table whose rows are decisions. *)
Lemma last_valid_decisions ncols j (ds : list (option Row)) :
  (j < ncols)%nat ->
  (forall r, In (Some r) ds -> numbers_row ncols r) ->
  last_valid (column j (map (realize ncols) ds))
  = nth j (realize ncols (last_decision ds)) NaN.
Proof.
  intros Hj H. unfold last_valid, last_decision.
  assert (G : forall (acc : option Row),
             fold_left (fun a x => match x with Some _ => x | None => a end)
                       (column j (map (realize ncols) ds))
                       (nth j (realize ncols acc) NaN)
             = nth j (realize ncols
                        (fold_left (fun a d => match d with Some _ => d | None => a end)
                                   ds acc)) NaN).
  { induction ds as [|d t IH]; intros acc; [reflexivity|].
    simpl. rewrite <- IH by (intros r Hr; apply H; now right).
    f_equal. destruct d as [r|]; simpl.
    - destruct (H r (or_introl eq_refl)) as [_ Hn].
      specialize (Hn j Hj). now destruct (nth j r NaN).
    - unfold nan_row. now rewrite nth_repeat_lt. }
  specialize (G None).
  replace (nth j (realize ncols None) NaN) with NaN in G
    by (unfold realize, nan_row; now rewrite nth_repeat_lt).
  exact G.
Qed.

Lemma realize_row ncols (o : option Row) :
  (forall r, o = Some r -> numbers_row ncols r) ->
  map (fun j => nth j (realize ncols o) NaN) (seq 0 ncols) = realize ncols o.
Proof.
  intros H. destruct o as [r|]; simpl.
  - destruct (H r eq_refl) as [Hl _]. rewrite <- Hl. apply map_seq_nth.
  - unfold nan_row. rewrite (map_ext_in _ (fun _ => NaN)).
    + now rewrite map_const, length_seq.
    + intros j Hj. apply in_seq in Hj. now rewrite nth_repeat_lt by lia.
Qed.

Lemma firstn_In {A} (x : A) n l : In x (firstn n l) -> In x l.
Proof.
  intros H. rewrite <- (firstn_skipn n l). apply in_or_app. now left.
Qed.

Lemma ffill_decisions ncols (ds : list (option Row)) :
  (forall r, In (Some r) ds -> numbers_row ncols r) ->
  apply_columns ffill ncols (map (realize ncols) ds)
  = map (fun i => realize ncols (last_decision (firstn (S i) ds)))
        (seq 0 (length ds)).
Proof.
  intros H. unfold apply_columns. rewrite length_map.
  apply map_ext_in. intros i Hi. apply in_seq in Hi.
  rewrite <- (realize_row ncols (last_decision (firstn (S i) ds))).
  - apply map_ext_in. intros j Hj. apply in_seq in Hj.
    rewrite ffill_nth by (rewrite column_length, length_map; lia).
    unfold column. rewrite !firstn_map.
    fold (column j (map (realize ncols) (firstn (S i) ds))).
    apply last_valid_decisions; [lia|].
    intros r Hr. apply H. eapply firstn_In; eauto.
  - intros r Hr. apply H. apply last_decision_in in Hr. eapply firstn_In; eauto.
Qed.

Lemma shift1_tabulated {A} (fill : A) (f : nat -> A) n :
  shift1 fill (map f (seq 0 n))
  = map (fun i => match i with O => fill | S i' => f i' end) (seq 0 n).
Proof.
  destruct n as [|n]; [reflexivity|].
  assert (E : shift1 fill (map f (seq 0 (S n)))
              = fill :: removelast (map f (seq 0 (S n)))) by reflexivity.
  rewrite E. rewrite seq_S at 1. rewrite map_app. simpl map at 2.
  rewrite removelast_last. simpl seq. simpl map. f_equal.
  rewrite <- seq_shift, map_map. reflexivity.
Qed.

Lemma fillna_numbers ncols (o : option Row) :
  (forall r, o = Some r -> numbers_row ncols r) ->
  map (fillna 0) (realize ncols o)
  = match o with Some r => r | None => const_row ncols 0 end.
Proof.
  intros H. destruct o as [r|]; simpl.
  - destruct (H r eq_refl) as [Hl Hn].
    rewrite <- (map_id r) at 2. apply map_ext_in. intros x Hx.
    destruct (In_nth r x NaN Hx) as [j [Hj Ej]].
    rewrite Hl in Hj. specialize (Hn j Hj). rewrite Ej in Hn. now destruct x.
  - unfold nan_row, const_row. now rewrite map_repeat.
Qed.

Lemma decisions_numbers cols k idx scores (l : list Date) r :
  In (Some r) (map (decision cols k idx scores) l) -> numbers_row (length cols) r.
Proof.
  intros H. apply in_map_iff in H as [d [Hd _]]. unfold decision in Hd.
  destruct (is_month_end d); [|discriminate]. injection Hd as <-.
  apply target_row_numbers.
Qed.

(** The daily weights, day by day: the weights held on a day are the last
    decision taken on an earlier trading day. *)
Theorem daily_weights_held cols k idx scores :
  sorted_index idx = true -> k <> 0%Z ->
  get_signal_from_scores cols k idx scores
  = Ok (map (held cols k idx scores) (seq 0 (length idx))).
Proof.
  intros Hs Hk. unfold get_signal_from_scores, resample_ME_last.
  cbn [fst snd].
  rewrite (mapM_total _ (target_row cols k)) by (intros; now apply allocate_row_ok).
  cbn [bind]. f_equal.
  set (ncols := length cols).
  assert (ER : reindex ncols idx (map month_end (month_bins idx))
                 (map (target_row cols k)
                    (map (monthly_row ncols idx scores) (month_bins idx)))
               = map (realize ncols) (map (decision cols k idx scores) idx)).
  { unfold reindex. rewrite !map_map. apply map_ext_in. intros d Hd.
    rewrite (reindex_monthly
               (fun mi => target_row cols k (monthly_row ncols idx scores mi))
               idx d (nan_row ncols) Hs Hd).
    unfold decision. fold ncols. now destruct (is_month_end d). }
  rewrite ER.
  rewrite ffill_decisions by (intros r Hr; eapply decisions_numbers; eauto).
  rewrite length_map, shift1_tabulated, map_map.
  apply map_ext. intros i. unfold held. destruct i as [|i].
  - simpl. unfold nan_row, const_row. now rewrite map_repeat.
  - rewrite fillna_numbers.
    + now rewrite firstn_map.
    + intros r Hr. apply last_decision_in in Hr. apply firstn_In in Hr.
      eapply decisions_numbers; eauto.
Qed.

Lemma mem_label_In c l : mem_label c l = true <-> In c l.
Proof.
  unfold mem_label. rewrite existsb_exists. split.
  - intros [x [Hx E]]. apply String.eqb_eq in E. now subst.
  - intros H. exists c. split; [assumption|apply String.eqb_refl].
Qed.

Lemma unique_labels_NoDup cols : unique_labels cols = true -> NoDup cols.
Proof.
  induction cols as [|c t IH]; intros H; [constructor|].
  simpl in H. apply andb_true_iff in H as [H1 H2]. constructor; [|now apply IH].
  intros Hin. apply mem_label_In in Hin. rewrite Hin in H1. discriminate.
Qed.

Lemma dropna_labelled_In cols row c :
  In c (map fst (dropna_labelled cols row)) -> In c cols.
Proof.
  revert row; induction cols as [|x t IH]; intros row H; [destruct row; contradiction|].
  destruct row as [|[q|] r]; simpl in H; try contradiction.
  - destruct H as [->|H]; [now left|right; eauto].
  - right; eauto.
Qed.

Lemma dropna_labelled_NoDup cols row :
  NoDup cols -> NoDup (map fst (dropna_labelled cols row)).
Proof.
  revert row; induction cols as [|x t IH]; intros row H.
  - destruct row; constructor.
  - inversion H as [|? ? Hx Ht]; subst.
    destruct row as [|[q|] r]; simpl; try constructor; auto.
    intros Hin. apply Hx. eapply dropna_labelled_In; eauto.
Qed.

Lemma insert_desc_perm x l : Permutation.Permutation (insert_desc x l) (x :: l).
Proof.
  induction l as [|y t IH]; simpl; [apply Permutation.Permutation_refl|].
  destruct (Qgtb (snd y) (snd x)).
  - eapply Permutation.perm_trans; [apply Permutation.perm_skip, IH|].
    apply Permutation.perm_swap.
  - apply Permutation.Permutation_refl.
Qed.

Lemma sort_desc_perm l : Permutation.Permutation (sort_desc l) l.
Proof.
  induction l as [|x t IH]; simpl; [constructor|].
  eapply Permutation.perm_trans; [apply insert_desc_perm|].
  now apply Permutation.perm_skip.
Qed.

Lemma NoDup_firstn {A} n (l : list A) : NoDup l -> NoDup (firstn n l).
Proof.
  intros H. rewrite <- (firstn_skipn n l) in H. now apply NoDup_app_remove_r in H.
Qed.

Lemma nlargest_NoDup k l : NoDup (map fst l) -> NoDup (nlargest k l).
Proof.
  intros H. unfold nlargest. rewrite <- firstn_map. apply NoDup_firstn.
  eapply Permutation.Permutation_NoDup; [|exact H].
  apply Permutation.Permutation_map, Permutation.Permutation_sym, sort_desc_perm.
Qed.

Lemma nlargest_In k l c : In c (nlargest k l) -> In c (map fst l).
Proof.
  unfold nlargest. rewrite <- firstn_map. intros H. apply firstn_In in H.
  eapply Permutation.Permutation_in; [|exact H].
  apply Permutation.Permutation_map, sort_desc_perm.
Qed.

Lemma nlargest_length k l :
  (0 <= k <= Z.of_nat (length l))%Z -> length (nlargest k l) = Z.to_nat k.
Proof.
  intros H. unfold nlargest. rewrite length_map, length_firstn.
  rewrite (Permutation.Permutation_length (sort_desc_perm l)). lia.
Qed.

Lemma filter_members_length (cols top : list string) :
  NoDup cols -> NoDup top -> incl top cols ->
  length (filter (fun c => mem_label c top) cols) = length top.
Proof.
  intros Hc Ht Hi. apply Permutation.Permutation_length.
  apply Permutation.NoDup_Permutation; [now apply NoDup_filter|assumption|].
  intros x. rewrite filter_In, mem_label_In. split; [tauto|].
  intros H. split; [now apply Hi|assumption].
Qed.

Lemma nansum_indicator (p : string -> bool) (w : Q) cols :
  nansum (map (fun c => if p c then Some w else Some 0) cols)
  == inject_Z (Z.of_nat (length (filter p cols))) * w.
Proof.
  unfold nansum. induction cols as [|c t IH]; simpl.
  - ring.
  - destruct (p c); simpl; rewrite IH.
    + rewrite Zpos_P_of_succ_nat. unfold Z.succ. rewrite inject_Z_plus. ring.
    + ring.
Qed.

Lemma nansum_zeros n : nansum (const_row n 0) == 0.
Proof.
  unfold nansum, const_row. induction n as [|n IH]; simpl; [reflexivity|].
  rewrite IH. ring.
Qed.

(** A month with at least K valid scores is fully invested: K weights of
    1/K. *)
Lemma target_row_selected cols k row :
  NoDup cols -> (1 <= k <= Z.of_nat (valid_count cols row))%Z ->
  nansum (target_row cols k row) == 1.
Proof.
  intros Hc Hk. unfold target_row.
  replace (Z.of_nat (valid_count cols row) <? k)%Z with false
    by (symmetry; apply Z.ltb_ge; lia).
  rewrite nansum_indicator.
  rewrite filter_members_length; try assumption.
  - rewrite nlargest_length by (unfold valid_count in Hk; lia).
    rewrite Z2Nat.id by lia. field.
    intros E. apply (inject_Z_injective k 0) in E. lia.
  - apply nlargest_NoDup. now apply dropna_labelled_NoDup.
  - intros c Hin. apply nlargest_In in Hin. eapply dropna_labelled_In; eauto.
Qed.

Lemma target_row_skipped cols k row :
  (Z.of_nat (valid_count cols row) < k)%Z ->
  target_row cols k row = const_row (length cols) 0.
Proof.
  intros H. unfold target_row. now replace (_ <? k)%Z with true by (symmetry; apply Z.ltb_lt; lia).
Qed.

Lemma target_row_entries cols k row x :
  In x (target_row cols k row) -> x = Some 0 \/ x = Some (1 / inject_Z k).
Proof.
  unfold target_row. destruct (_ <? k)%Z; intros H.
  - left. unfold const_row in H. now apply repeat_spec in H.
  - apply in_map_iff in H as [c [<- _]]. destruct (mem_label _ _); auto.
Qed.

Lemma last_decision_app (a b : list (option Row)) :
  last_decision (a ++ b)
  = match last_decision b with Some r => Some r | None => last_decision a end.
Proof.
  unfold last_decision. rewrite fold_left_app.
  generalize (fold_left (fun acc d => match d with Some _ => d | None => acc end) a None).
  induction b as [|d t IH]; intros acc; simpl; [reflexivity|].
  destruct d as [r|].
  - rewrite (IH (Some r)).
    now destruct (fold_left (fun acc d => match d with Some _ => d | None => acc end) t None).
  - apply IH.
Qed.

Lemma last_decision_none (l : list (option Row)) :
  (forall x, In x l -> x = None) -> last_decision l = None.
Proof.
  induction l as [|d t IH] using rev_ind; intros H; [reflexivity|].
  rewrite last_decision_app.
  rewrite (H d) by (apply in_or_app; right; now left). simpl.
  apply IH. intros x Hx. apply H, in_or_app. now left.
Qed.

Lemma firstn_S_nth {A} (l : list A) j d0 :
  (j < length l)%nat -> firstn (S j) l = firstn j l ++ [nth j l d0].
Proof.
  revert j; induction l as [|x t IH]; intros j H; simpl in H; [lia|].
  destruct j as [|j]; [reflexivity|].
  change (firstn (S (S j)) (x :: t)) with (x :: firstn (S j) t).
  rewrite IH by lia. reflexivity.
Qed.

Lemma firstn_split_at {A} (l : list A) j i d0 :
  (j < i)%nat -> (i <= length l)%nat ->
  firstn i l = firstn j l ++ [nth j l d0] ++ skipn (S j) (firstn i l).
Proof.
  intros Hj Hi.
  rewrite <- (firstn_skipn (S j) (firstn i l)) at 1.
  rewrite firstn_firstn. replace (Nat.min (S j) i) with (S j) by lia.
  rewrite (firstn_S_nth l j d0) by lia. now rewrite <- app_assoc.
Qed.

Lemma In_skipn_firstn {A} (l : list A) j i d0 x :
  In x (skipn (S j) (firstn i l)) ->
  exists m, (j < m < i)%nat /\ (m < length l)%nat /\ x = nth m l d0.
Proof.
  intros H. destruct (In_nth _ _ d0 H) as [p [Hp Ep]].
  rewrite length_skipn, length_firstn in Hp.
  rewrite nth_skipn, nth_firstn in Ep.
  destruct (S j + p <? i)%nat eqn:E.
  - apply Nat.ltb_lt in E. exists (S j + p)%nat. repeat split; try lia. now symmetry.
  - apply Nat.ltb_ge in E. lia.
Qed.

(** The day after a month-end trading day, and until the next one, the
    weights held are the target weights of that month. *)
Lemma held_governed cols k idx scores j i d0 :
  (j < i)%nat -> (i <= length idx)%nat ->
  is_month_end (nth j idx d0) = true ->
  (forall m, (j < m < i)%nat -> is_month_end (nth m idx d0) = false) ->
  held cols k idx scores i
  = target_row cols k
      (monthly_row (length cols) idx scores (month_index (nth j idx d0))).
Proof.
  intros Hj Hi Hme Hno. unfold held.
  rewrite (firstn_split_at idx j i d0 Hj Hi), !map_app, !last_decision_app.
  rewrite (last_decision_none (map _ (skipn (S j) (firstn i idx)))).
  - simpl map. unfold decision at 1. rewrite Hme. reflexivity.
  - intros x Hx. apply in_map_iff in Hx as [d [<- Hd]].
    destruct (In_skipn_firstn idx j i d0 d Hd) as [m [Hm [_ ->]]].
    unfold decision. now rewrite (Hno m Hm).
Qed.

(** Before any selection was made, nothing is held. *)
Lemma held_before_selection cols k idx scores i d0 :
  (i <= length idx)%nat ->
  (forall j, (j < i)%nat -> selection_made cols k idx scores (nth j idx d0) = false) ->
  held cols k idx scores i = const_row (length cols) 0.
Proof.
  intros Hi H. unfold held.
  assert (G : forall l : list Date,
             (forall d, In d l -> selection_made cols k idx scores d = false) ->
             last_decision (map (decision cols k idx scores) l) = None \/
             last_decision (map (decision cols k idx scores) l)
             = Some (const_row (length cols) 0)).
  { induction l as [|d t IH] using rev_ind; intros Hl; [now left|].
    rewrite map_app, last_decision_app. simpl map.
    assert (Hd : selection_made cols k idx scores d = false)
      by (apply Hl, in_or_app; right; now left).
    unfold decision at 1 3. unfold selection_made in Hd.
    destruct (is_month_end d); simpl in Hd |- *.
    - right. rewrite target_row_skipped; [reflexivity|].
      apply Z.leb_gt in Hd. unfold month_valid_count in Hd. lia.
    - apply IH. intros x Hx. apply Hl, in_or_app. now left. }
  destruct (G (firstn i idx)) as [E|E].
  - intros d Hd. destruct (In_nth _ _ d0 Hd) as [p [Hp <-]].
    rewrite length_firstn in Hp. rewrite nth_firstn.
    replace (p <? i)%nat with true by (symmetry; apply Nat.ltb_lt; lia).
    apply H. lia.
  - now rewrite E.
  - now rewrite E.
Qed.

Lemma held_cases cols k idx scores i :
  held cols k idx scores i = const_row (length cols) 0 \/
  exists row, held cols k idx scores i = target_row cols k row.
Proof.
  unfold held. destruct (last_decision _) as [r|] eqn:E; [|now left].
  right. apply last_decision_in in E. apply in_map_iff in E as [d [Hd _]].
  unfold decision in Hd. destruct (is_month_end d); [|discriminate].
  injection Hd as <-. eexists. reflexivity.
Qed.

(** C1, as stated, fails: February has one valid score, fewer than K = 2,
    and its month-end is a trading day.  On the next trading day the weights
    are all zero; the weights set at the end of January (1/2, 1/2, 0), still
    held on the last day of February, do not persist.  The skipped month
    keeps the zeros its row was created with, and zeros are not missing
    values, so the forward fill stops at them. *)
Lemma skipped_month_drops_previous_weights :
  month_valid_count ex_cols ex_idx ex_scores (mkDate 2024 2 29) = 1%nat /\
  exists daily,
    get_signal_from_scores ex_cols 2 ex_idx ex_scores = Ok daily /\
    nth 3 daily [] = [Some (1 # 2); Some (1 # 2); Some 0] /\
    nth 4 daily [] = [Some 0; Some 0; Some 0] /\
    nth 4 daily [] <> nth 3 daily [].
Proof.
  split; [reflexivity|]. eexists. split; [vm_compute; reflexivity|].
  repeat split. discriminate.
Qed.

(** C1, amended: in a rebalance month whose month-end is a trading day and
    in which fewer than K assets have a valid monthly score, the Allocator
    selects nothing and raises nothing; the daily weights of the trading days
    after that month-end, up to and including the next month-end that is a
    trading day, are all zero, whatever was held before. *)
Theorem skipped_month_holds_nothing cols k idx scores (j i : nat) (d0 : Date) :
  sorted_index idx = true ->
  (j < i)%nat -> (i < length idx)%nat ->
  is_month_end (nth j idx d0) = true ->
  (Z.of_nat (month_valid_count cols idx scores (nth j idx d0)) < k)%Z ->
  (forall m, (j < m < i)%nat -> is_month_end (nth m idx d0) = false) ->
  exists daily,
    get_signal_from_scores cols k idx scores = Ok daily /\
    length daily = length idx /\
    nth i daily [] = const_row (length cols) 0.
Proof.
  intros Hs Hj Hi Hme Hc Hno.
  exists (map (held cols k idx scores) (seq 0 (length idx))).
  split; [apply daily_weights_held; [assumption|lia]|].
  split; [now rewrite length_map, length_seq|].
  rewrite nth_seq_map by assumption.
  rewrite (held_governed cols k idx scores j i d0) by (auto; lia).
  now apply target_row_skipped.
Qed.

Lemma skipped_month_holds_nothing_witness :
  exists daily,
    get_signal_from_scores ex_cols 2 ex_idx ex_scores = Ok daily /\
    length daily = length ex_idx /\
    nth 4 daily [] = const_row (length ex_cols) 0.
Proof.
  apply (skipped_month_holds_nothing ex_cols 2 ex_idx ex_scores 3 4 (mkDate 0 0 0)).
  - reflexivity.
  - lia.
  - simpl; lia.
  - reflexivity.
  - vm_compute; reflexivity.
  - intros m Hm; lia.
Defined.

(** C2 at its failing input: September 2023 ends on a Saturday.  The
    selection of the month is made (the asset gets the target weight 1/K = 1)
    under the label 2023-09-30, which is not a date of the price panel, so
    the reindexing drops it and no trading day of October carries it. *)
Theorem weekend_month_end_loses_rebalance :
  allocate_row ["A"%string] 1
    (monthly_row 1 ex_weekend_idx ex_weekend_scores (month_index (mkDate 2023 9 29)))
  = Ok [Some 1] /\
  month_end (month_index (mkDate 2023 9 29)) = mkDate 2023 9 30 /\
  mem_date (mkDate 2023 9 30) ex_weekend_idx = false /\
  get_signal_from_scores ["A"%string] 1 ex_weekend_idx ex_weekend_scores
  = Ok [[Some 0]; [Some 0]; [Some 0]].
Proof. vm_compute. repeat split. Qed.

(** The invariants of the daily weights, in exact arithmetic and for the
    rebalances whose month-end is a trading day: every row sums to at most
    1, each of its entries is 0 or exactly 1/K, the row sums to 1 on the days
    governed by such a rebalance in which K assets were selected, and it is
    all zero on the days before the first such rebalance takes effect. *)
Theorem daily_weights_invariants cols k idx scores :
  sorted_index idx = true -> unique_labels cols = true -> (1 <= k)%Z ->
  exists daily,
    get_signal_from_scores cols k idx scores = Ok daily /\
    length daily = length idx /\
    forall (i : nat) (d0 : Date), (i < length idx)%nat ->
      nansum (nth i daily []) <= 1 /\
      (forall x, In x (nth i daily []) -> x = Some 0 \/ x = Some (1 / inject_Z k)) /\
      (forall j, (j < i)%nat ->
         selection_made cols k idx scores (nth j idx d0) = true ->
         (forall m, (j < m < i)%nat -> is_month_end (nth m idx d0) = false) ->
         nansum (nth i daily []) == 1) /\
      ((forall j, (j < i)%nat ->
          selection_made cols k idx scores (nth j idx d0) = false) ->
       nth i daily [] = const_row (length cols) 0).
Proof.
  intros Hs Hu Hk. apply unique_labels_NoDup in Hu.
  exists (map (held cols k idx scores) (seq 0 (length idx))).
  split; [apply daily_weights_held; [assumption|lia]|].
  split; [now rewrite length_map, length_seq|].
  intros i d0 Hi. rewrite nth_seq_map by assumption.
  split; [|split; [|split]].
  - destruct (held_cases cols k idx scores i) as [E|[row E]]; rewrite E.
    + rewrite nansum_zeros. discriminate.
    + destruct (Z.of_nat (valid_count cols row) <? k)%Z eqn:Ev.
      * apply Z.ltb_lt in Ev. rewrite target_row_skipped by assumption.
        rewrite nansum_zeros. discriminate.
      * apply Z.ltb_ge in Ev. rewrite target_row_selected by (auto; lia).
        apply Qle_refl.
  - intros x Hx.
    destruct (held_cases cols k idx scores i) as [E|[row E]]; rewrite E in Hx.
    + left. unfold const_row in Hx. now apply repeat_spec in Hx.
    + eapply target_row_entries; eauto.
  - intros j Hj Hsel Hno. unfold selection_made in Hsel.
    apply andb_true_iff in Hsel as [Hme Hcnt]. apply Z.leb_le in Hcnt.
    rewrite (held_governed cols k idx scores j i d0) by (auto; lia).
    apply target_row_selected; [assumption|]. unfold month_valid_count in Hcnt. lia.
  - intros Hnone. apply (held_before_selection cols k idx scores i d0); [lia|assumption].
Qed.

Lemma daily_weights_invariants_witness :
  exists daily,
    get_signal_from_scores ex_cols 2 ex_idx ex_scores = Ok daily /\
    length daily = length ex_idx /\
    forall (i : nat) (d0 : Date), (i < length ex_idx)%nat ->
      nansum (nth i daily []) <= 1 /\
      (forall x, In x (nth i daily []) -> x = Some 0 \/ x = Some (1 / inject_Z 2)) /\
      (forall j, (j < i)%nat ->
         selection_made ex_cols 2 ex_idx ex_scores (nth j ex_idx d0) = true ->
         (forall m, (j < m < i)%nat -> is_month_end (nth m ex_idx d0) = false) ->
         nansum (nth i daily []) == 1) /\
      ((forall j, (j < i)%nat ->
          selection_made ex_cols 2 ex_idx ex_scores (nth j ex_idx d0) = false) ->
       nth i daily [] = const_row (length ex_cols) 0).
Proof.
  apply (daily_weights_invariants ex_cols 2 ex_idx ex_scores).
  - reflexivity.
  - reflexivity.
  - lia.
Defined.

(** C5 at its failing input: two assets, K = 2, and September 2023, which
    ends on a Saturday.  The rebalance of September is fully selected: both
    assets have a score and the target row puts 1/2 on each, so it sums to
    1.  The trading days 2023-10-02 and 2023-10-03 are governed by this
    rebalance, and their daily rows are all zero: the row sum is 0, not 1. *)
Theorem fully_selected_rebalance_sums_to_zero :
  exists target daily : list Row,
    mapM (allocate_row ex_pair_cols 2)
         (snd (resample_ME_last 2 ex_weekend_idx ex_weekend_pair_scores))
    = Ok target /\
    nth 0 target [] = [Some (1 # 2); Some (1 # 2)] /\
    nansum (nth 0 target []) == 1 /\
    fst (resample_ME_last 2 ex_weekend_idx ex_weekend_pair_scores)
    = [mkDate 2023 9 30; mkDate 2023 10 31] /\
    get_signal_from_scores ex_pair_cols 2 ex_weekend_idx ex_weekend_pair_scores
    = Ok daily /\
    nth 1 daily [] = [Some 0; Some 0] /\
    nth 2 daily [] = [Some 0; Some 0] /\
    nansum (nth 1 daily []) == 0 /\
    nansum (nth 2 daily []) == 0.
Proof.
  eexists. eexists.
  split; [vm_compute; reflexivity|].
  repeat split.
Qed.

(** ** No lookahead *)

Lemma mapi_from_firstn {A B} (f : nat -> A -> B) a l n :
  firstn n (mapi_from f a l) = mapi_from f a (firstn n l).
Proof.
  revert a n; induction l as [|x t IH]; intros a n; destruct n; simpl; auto.
  now rewrite IH.
Qed.

Lemma mapi_from_ext {A B} (f g : nat -> A -> B) a l :
  (forall i x, (a <= i < a + length l)%nat -> f i x = g i x) ->
  mapi_from f a l = mapi_from g a l.
Proof.
  revert a; induction l as [|x t IH]; intros a H; simpl; [reflexivity|].
  rewrite H by (simpl; lia). f_equal. apply IH. intros i y Hi. apply H. simpl. lia.
Qed.

Lemma mapi_causal (h : Series -> nat -> F -> F) :
  (forall s n i x, (i < n)%nat -> h (firstn n s) i x = h s i x) ->
  causal (fun s => mapi (h s) s).
Proof.
  intros H s n. unfold mapi. rewrite mapi_from_firstn.
  apply mapi_from_ext. intros i x Hi. symmetry. apply H.
  rewrite length_firstn in Hi. lia.
Qed.

Lemma lagged_firstn p s n i : (i < n)%nat -> lagged p (firstn n s) i = lagged p s i.
Proof.
  intros H. unfold lagged. destruct (i <? p)%nat; [reflexivity|].
  rewrite nth_firstn. now replace (i - p <? n)%nat with true
    by (symmetry; apply Nat.ltb_lt; lia).
Qed.

Lemma trailing_firstn w i s n :
  (i < n)%nat -> (w <= S i)%nat -> trailing w i (firstn n s) = trailing w i s.
Proof.
  intros Hi Hw. unfold trailing.
  replace n with ((S i - w) + (n - (S i - w)))%nat at 1 by lia.
  rewrite <- firstn_skipn_comm, firstn_firstn. f_equal. lia.
Qed.

Lemma pct_change_causal p : causal (pct_change p).
Proof.
  apply (mapi_causal (fun s i x => fsub (fdiv x (lagged p s i)) (Some 1))).
  intros s n i x Hi. now rewrite lagged_firstn.
Qed.

Lemma diff_causal : causal diff.
Proof.
  apply (mapi_causal (fun s i x => fsub x (lagged 1 s i))).
  intros s n i x Hi. now rewrite lagged_firstn.
Qed.

Lemma rolling_causal w agg : causal (rolling w agg).
Proof.
  apply (mapi_causal (fun s i _ => if (S i <? w)%nat then NaN else agg (trailing w i s))).
  intros s n i x Hi. destruct (S i <? w)%nat eqn:E; [reflexivity|].
  apply Nat.ltb_ge in E. now rewrite trailing_firstn.
Qed.

Lemma ffill_causal : causal ffill.
Proof.
  intros s n. unfold ffill. generalize NaN. revert n.
  induction s as [|x t IH]; intros n acc; destruct n; simpl; auto.
  now rewrite IH.
Qed.

Lemma map_causal (g : F -> F) : causal (map g).
Proof. intros s n. apply firstn_map. Qed.

Lemma causal_compose f g : causal f -> causal g -> causal (fun s => g (f s)).
Proof. intros Hf Hg s n. now rewrite Hg, Hf. Qed.

Lemma map2_firstn {A B C} (f : A -> B -> C) l1 l2 n :
  firstn n (map2 f l1 l2) = map2 f (firstn n l1) (firstn n l2).
Proof.
  revert l2 n; induction l1 as [|x t IH]; intros [|y u] [|n]; simpl; auto.
  now rewrite IH.
Qed.

Lemma map2_causal op f g : causal f -> causal g -> causal (fun s => map2 op (f s) (g s)).
Proof. intros Hf Hg s n. now rewrite map2_firstn, Hf, Hg. Qed.

Lemma calculate_rsi_causal period : causal (fun s => calculate_rsi s period).
Proof.
  unfold calculate_rsi.
  apply (causal_compose
           (fun s => map2 fdiv
                       (rolling period window_mean
                          (where_ (fun d => fgt d (Some 0)) (Some 0) (diff s)))
                       (map (fun l => fadd l (Some eps))
                          (rolling period window_mean
                             (map fneg
                                (where_ (fun d => flt d (Some 0)) (Some 0) (diff s))))))
           (map (fun r => fsub (Some 100) (fdiv (Some 100) (fadd (Some 1) r))))).
  - apply map2_causal.
    + apply (causal_compose (fun s => where_ _ _ (diff s)) (rolling period window_mean)).
      * apply (causal_compose diff (where_ _ _)); [apply diff_causal|apply map_causal].
      * apply rolling_causal.
    + apply (causal_compose
               (fun s => rolling period window_mean
                           (map fneg (where_ (fun d => flt d (Some 0)) (Some 0) (diff s))))
               (map _)); [|apply map_causal].
      apply (causal_compose
               (fun s => map fneg (where_ (fun d => flt d (Some 0)) (Some 0) (diff s)))
               (rolling period window_mean)); [|apply rolling_causal].
      apply (causal_compose (fun s => where_ _ _ (diff s)) (map fneg)); [|apply map_causal].
      apply (causal_compose diff (where_ _ _)); [apply diff_causal|apply map_causal].
  - apply map_causal.
Qed.

(** Frames: cutting the rows commutes with the column-wise operations. *)
Lemma column_firstn j rows n : column j (firstn n rows) = firstn n (column j rows).
Proof. unfold column. now rewrite firstn_map. Qed.

Lemma firstn_map_seq {B} (g : nat -> B) n len :
  firstn n (map g (seq 0 len)) = map g (seq 0 (Nat.min n len)).
Proof.
  rewrite firstn_map. f_equal.
  destruct (Nat.le_ge_cases n len).
  - rewrite firstn_seq_le by assumption. f_equal. lia.
  - rewrite firstn_all2 by (rewrite length_seq; lia). f_equal. lia.
Qed.

Lemma apply_columns_firstn f ncols rows n :
  causal f ->
  firstn n (apply_columns f ncols rows) = apply_columns f ncols (firstn n rows).
Proof.
  intros Hf. unfold apply_columns. rewrite firstn_map_seq, length_firstn.
  apply map_ext_in. intros i Hi. apply in_seq in Hi.
  apply map_ext. intros j.
  rewrite column_firstn, <- Hf, nth_firstn.
  now replace (i <? n)%nat with true by (symmetry; apply Nat.ltb_lt; lia).
Qed.

Lemma frame_map2_firstn op a b n :
  firstn n (frame_map2 op a b) = frame_map2 op (firstn n a) (firstn n b).
Proof. apply map2_firstn. Qed.

Lemma loc_add_firstn mask sel delta cols regime n :
  firstn n (loc_add mask sel delta cols regime)
  = loc_add (firstn n mask) sel delta cols (firstn n regime).
Proof. apply map2_firstn. Qed.

Section Causality.

Variable fsqrt : Q -> Q.

Lemma calculate_factors_cut self n :
  calculate_factors fsqrt (with_prices self (cut n (prices self)))
  = let '(m, v, r, l) := calculate_factors fsqrt self in
    (firstn n m, firstn n v, firstn n r, firstn n l).
Proof.
  unfold calculate_factors, with_prices, cut. cbn [prices columns values
    momentum_period volatility_period rsi_period value_period].
  rewrite <- !apply_columns_firstn
    by first [apply pct_change_causal | apply rolling_causal
             | apply calculate_rsi_causal].
  rewrite (apply_columns_firstn (rolling (volatility_period self) (window_std fsqrt)))
    by apply rolling_causal.
  rewrite (apply_columns_firstn (pct_change 1)) by apply pct_change_causal.
  unfold frame_map2. rewrite !map2_firstn, !firstn_map.
  rewrite !(apply_columns_firstn (rolling (value_period self) window_mean))
    by apply rolling_causal.
  reflexivity.
Qed.

Lemma composite_firstn m v r l boost n :
  composite fsqrt (firstn n m) (firstn n v) (firstn n r) (firstn n l)
            (option_map (firstn n) boost)
  = firstn n (composite fsqrt m v r l boost).
Proof.
  unfold composite, zscore, frame_scale, frame_neg, frame_map2.
  destruct boost as [b|]; simpl option_map; cbv iota;
    rewrite ?map2_firstn, ?firstn_map; reflexivity.
Qed.

Lemma get_macro_regime_cut self n :
  get_macro_regime (with_prices self (cut n (prices self)))
  = map_result (option_map (firstn n)) (get_macro_regime self).
Proof.
  unfold get_macro_regime, with_prices, cut.
  cbn [macro_data prices index columns].
  destruct (macro_data self) as [md|]; [|reflexivity].
  destruct (column_position "INR=X" (columns md)) as [ju|]; [|reflexivity].
  destruct (column_position "CL=F" (columns md)) as [jc|]; [|reflexivity].
  cbn [map_result option_map]. do 2 f_equal.
  rewrite !loc_add_firstn, !map2_firstn, !firstn_map.
  assert (E : reindex (length (columns md)) (firstn n (index (prices self)))
                (index md) (values md)
              = firstn n (reindex (length (columns md)) (index (prices self))
                            (index md) (values md))).
  { unfold reindex. now rewrite firstn_map. }
  rewrite E. rewrite <- (apply_columns_firstn ffill) by apply ffill_causal.
  rewrite !column_firstn.
  rewrite <- !(rolling_causal 50 window_mean). reflexivity.
Qed.

Lemma compute_scores_cut self n :
  compute_scores fsqrt (with_prices self (cut n (prices self)))
  = map_result (firstn n) (compute_scores fsqrt self).
Proof.
  unfold compute_scores. rewrite calculate_factors_cut, get_macro_regime_cut.
  destruct (calculate_factors fsqrt self) as [[[m v] r] l].
  destruct (get_macro_regime self) as [boost|e]; [|reflexivity].
  cbn [map_result bind]. now rewrite composite_firstn.
Qed.

Lemma get_macro_regime_agree (s1 s2 : SectorStrategy) :
  prices s1 = prices s2 ->
  macro_same_on (index (prices s1)) (macro_data s1) (macro_data s2) ->
  get_macro_regime s1 = get_macro_regime s2.
Proof.
  intros Hp Hm. unfold get_macro_regime. rewrite <- Hp.
  unfold macro_same_on in Hm.
  destruct (macro_data s1) as [a|], (macro_data s2) as [b|];
    try contradiction; [|reflexivity].
  destruct Hm as [Hc Hr].
  assert (E : reindex (length (columns a)) (index (prices s1)) (index a) (values a)
              = reindex (length (columns b)) (index (prices s1)) (index b) (values b)).
  { unfold reindex. apply map_ext_in. intros d Hd. apply (Hr d Hd). }
  now rewrite E, Hc.
Qed.

Lemma compute_scores_agree (s1 s2 : SectorStrategy) :
  prices s1 = prices s2 ->
  momentum_period s1 = momentum_period s2 ->
  volatility_period s1 = volatility_period s2 ->
  rsi_period s1 = rsi_period s2 ->
  value_period s1 = value_period s2 ->
  macro_same_on (index (prices s1)) (macro_data s1) (macro_data s2) ->
  compute_scores fsqrt s1 = compute_scores fsqrt s2.
Proof.
  intros Hp H1 H2 H3 H4 Hm. unfold compute_scores.
  rewrite (get_macro_regime_agree s1 s2 Hp Hm).
  unfold calculate_factors. now rewrite Hp, H1, H2, H3, H4.
Qed.

End Causality.

Lemma combine_split_at {A B} (l : list A) (l' : list B) n :
  combine l l' = combine (firstn n l) (firstn n l') ++ combine (skipn n l) (skipn n l').
Proof.
  revert l l'; induction n as [|n IH]; intros l l'; [reflexivity|].
  destruct l as [|x t]; [reflexivity|].
  destruct l' as [|y u]; [simpl; now rewrite !combine_nil|].
  simpl. now rewrite <- IH.
Qed.

Lemma filter_none {A} (f : A -> bool) l :
  (forall x, In x l -> f x = false) -> filter f l = [].
Proof.
  induction l as [|x t IH]; intros H; simpl; [reflexivity|].
  rewrite (H x) by now left. apply IH. intros y Hy. apply H. now right.
Qed.

Lemma In_skipn_nth {A} (l : list A) n d0 x :
  In x (skipn n l) -> exists m, (n <= m < length l)%nat /\ x = nth m l d0.
Proof.
  intros H. destruct (In_nth _ _ d0 H) as [p [Hp Ep]].
  rewrite length_skipn in Hp. rewrite nth_skipn in Ep.
  exists (n + p)%nat. split; [lia|now symmetry].
Qed.

Lemma date_ltb_asym a b : date_ltb a b = true -> date_ltb b a = false.
Proof.
  intros H. destruct (date_ltb b a) eqn:E; [|reflexivity].
  pose proof (date_ltb_trans _ _ _ H E) as H'. now rewrite date_ltb_irrefl in H'.
Qed.

(** The rows of the month of a month-end trading day all come before any
    later trading day. *)
Lemma rows_of_month_prefix idx scores j n d0 :
  sorted_index idx = true -> (j < n)%nat -> (j < length idx)%nat ->
  is_month_end (nth j idx d0) = true ->
  rows_of_month (month_index (nth j idx d0)) idx scores
  = rows_of_month (month_index (nth j idx d0)) (firstn n idx) (firstn n scores).
Proof.
  intros Hs Hj Hl Hme. unfold rows_of_month.
  rewrite (combine_split_at idx scores n), filter_app, map_app.
  rewrite (filter_none _ (combine (skipn n idx) (skipn n scores))).
  - simpl. now rewrite app_nil_r.
  - intros [d r] Hin. apply in_combine_l in Hin. simpl.
    destruct (In_skipn_nth idx n d0 d Hin) as [m [Hm ->]].
    pose proof (sorted_index_split _ Hs) as [_ Hinc].
    assert (Hlt : date_ltb (nth j idx d0) (nth m idx d0) = true)
      by (apply increasing_nth_lt; auto; lia).
    destruct (month_index (nth m idx d0) =? month_index (nth j idx d0))%Z eqn:E;
      [|reflexivity].
    apply Z.eqb_eq in E.
    rewrite (nothing_after_month_end (nth j idx d0) (nth m idx d0)) in Hlt;
      [discriminate| |assumption|assumption].
    apply (sorted_valid idx); [assumption|apply nth_In; lia].
Qed.

Lemma decision_prefix cols k idx scores j n d0 :
  sorted_index idx = true -> (j < n)%nat -> (j < length idx)%nat ->
  decision cols k idx scores (nth j idx d0)
  = decision cols k (firstn n idx) (firstn n scores) (nth j idx d0).
Proof.
  intros Hs Hj Hl. unfold decision.
  destruct (is_month_end (nth j idx d0)) eqn:E; [|reflexivity].
  unfold monthly_row. now rewrite (rows_of_month_prefix idx scores j n d0).
Qed.

(** The weights held on a day depend on the scores of earlier days only. *)
Lemma held_prefix cols k idx scores i n :
  sorted_index idx = true -> (i <= n)%nat ->
  held cols k idx scores i = held cols k (firstn n idx) (firstn n scores) i.
Proof.
  intros Hs Hi. unfold held.
  rewrite firstn_firstn. replace (Nat.min i n) with i by lia.
  assert (E : map (decision cols k idx scores) (firstn i idx)
              = map (decision cols k (firstn n idx) (firstn n scores)) (firstn i idx)).
  { apply map_ext_in. intros d Hd.
    destruct (In_nth _ _ (mkDate 0 0 0) Hd) as [p [Hp <-]].
    rewrite length_firstn in Hp. rewrite nth_firstn.
    replace (p <? i)%nat with true by (symmetry; apply Nat.ltb_lt; lia).
    apply decision_prefix; [assumption|lia|lia]. }
  now rewrite E.
Qed.

Lemma month_bins_nonempty idx :
  sorted_index idx = true -> idx <> [] -> month_bins idx <> [].
Proof.
  intros Hs Hne. destruct idx as [|d0 t] eqn:E; [contradiction|].
  rewrite <- E in *.
  assert (Hin : In (last idx d0) idx).
  { rewrite last_as_nth. apply nth_In. rewrite E. simpl. lia. }
  pose proof (month_index_range idx d0 (last idx d0) Hs Hin) as [H _].
  replace (hd d0 idx) with d0 in H by now rewrite E.
  assert (Eb : month_bins idx
               = map (fun k => (month_index d0 + Z.of_nat k)%Z)
                     (seq 0 (Z.to_nat (month_index (last idx d0) - month_index d0 + 1))))
    by now rewrite E.
  rewrite Eb. intros Hnil. apply (f_equal (@length Z)) in Hnil.
  rewrite length_map, length_seq in Hnil. simpl in Hnil. lia.
Qed.

(** With K = 0 the Allocator divides by zero on the first month. *)
Lemma get_signal_zero_k cols idx scores :
  sorted_index idx = true -> idx <> [] ->
  get_signal_from_scores cols 0 idx scores = Raise ZeroDivisionError.
Proof.
  intros Hs Hne. unfold get_signal_from_scores, resample_ME_last. cbn [fst snd].
  pose proof (month_bins_nonempty idx Hs Hne) as Hb.
  destruct (month_bins idx) as [|m t]; [contradiction|].
  cbn [map mapM]. unfold allocate_row at 1.
  replace (Z.of_nat _ <? 0)%Z with false by (symmetry; apply Z.ltb_ge; lia).
  reflexivity.
Qed.

Lemma get_signal_row cols k idx scores w i :
  sorted_index idx = true -> (i < length idx)%nat ->
  get_signal_from_scores cols k idx scores = Ok w ->
  nth i w [] = held cols k idx scores i.
Proof.
  intros Hs Hi H. destruct (Z.eq_dec k 0) as [->|Hk].
  - rewrite get_signal_zero_k in H; [discriminate|assumption|].
    intros ->. simpl in Hi. lia.
  - rewrite daily_weights_held in H by assumption. injection H as <-.
    now rewrite nth_seq_map.
Qed.

Lemma lookup_find (idx : list Date) (vals : list Row) d fill :
  match index_of d idx with
  | Some i => nth i vals fill
  | None => fill
  end
  = match find (fun dr => date_eqb (fst dr) d) (combine idx vals) with
    | Some dr => snd dr
    | None => fill
    end.
Proof.
  revert vals; induction idx as [|x t IH]; intros vals; [reflexivity|].
  destruct vals as [|r u]; simpl.
  - destruct (date_eqb x d); [reflexivity|].
    destruct (index_of d t) as [i|]; simpl; [now destruct i|reflexivity].
  - destruct (date_eqb x d); [reflexivity|].
    rewrite <- IH. now destruct (index_of d t).
Qed.

Lemma find_filter {A} (q p : A -> bool) l :
  (forall x, q x = true -> p x = true) -> find q (filter p l) = find q l.
Proof.
  intros H. induction l as [|x t IH]; [reflexivity|]. simpl.
  destruct (p x) eqn:Ep; simpl.
  - now rewrite IH.
  - destruct (q x) eqn:Eq; [|assumption].
    apply H in Eq. congruence.
Qed.

Lemma upto_row_at T x y d :
  columns x = columns y -> upto T x = upto T y -> date_leb d T = true ->
  row_at x d = row_at y d.
Proof.
  intros Hc Hu Hd. unfold row_at. rewrite !lookup_find, Hc.
  rewrite <- (find_filter _ (fun dr => date_leb (fst dr) T) (combine (index x) (values x))).
  - rewrite <- (find_filter _ (fun dr => date_leb (fst dr) T)
                  (combine (index y) (values y))).
    + fold (upto T x). fold (upto T y). now rewrite Hu.
    + intros dr E. apply date_eqb_eq in E. now rewrite E.
  - intros dr E. apply date_eqb_eq in E. now rewrite E.
Qed.

Lemma macro_agree_prefix idx n d0 a b :
  sorted_index idx = true -> (n < length idx)%nat ->
  macro_agree_upto (nth n idx d0) a b ->
  macro_same_on (firstn (S n) idx) a b.
Proof.
  intros Hs Hn H. unfold macro_agree_upto in H. unfold macro_same_on.
  destruct a as [x|], b as [y|]; try exact H.
  destruct H as [Hc Hr]. split; [assumption|].
  intros d Hd. apply (upto_row_at (nth n idx d0)); [assumption|assumption|].
  destruct (In_nth _ _ d0 Hd) as [p [Hp <-]].
  rewrite length_firstn in Hp. rewrite nth_firstn.
  replace (p <? S n)%nat with true by (symmetry; apply Nat.ltb_lt; lia).
  unfold date_leb. destruct (Nat.eq_dec p n) as [->|Hne].
  - now rewrite date_ltb_irrefl.
  - pose proof (sorted_index_split _ Hs) as [_ Hinc].
    rewrite (date_ltb_asym (nth p idx d0) (nth n idx d0)); [reflexivity|].
    apply increasing_nth_lt; auto; lia.
Qed.

Section NoLookahead.

Variable fsqrt : Q -> Q.

(** Two strategies whose prices agree on the rows 0..n and whose macro
    panels agree up to the date of row n hold the same weights on the rows
    0..n+1. *)
Lemma no_lookahead_objects (A B : SectorStrategy) (n i : nat)
    (wA wB : list Row) (d0 : Date) :
  columns (prices A) = columns (prices B) ->
  top_k A = top_k B ->
  momentum_period A = momentum_period B ->
  volatility_period A = volatility_period B ->
  rsi_period A = rsi_period B ->
  value_period A = value_period B ->
  sorted_index (index (prices A)) = true ->
  sorted_index (index (prices B)) = true ->
  (n < length (index (prices A)))%nat ->
  firstn (S n) (index (prices A)) = firstn (S n) (index (prices B)) ->
  firstn (S n) (values (prices A)) = firstn (S n) (values (prices B)) ->
  macro_agree_upto (nth n (index (prices A)) d0) (macro_data A) (macro_data B) ->
  get_signal_df fsqrt A = Ok wA ->
  get_signal_df fsqrt B = Ok wB ->
  (i <= S n)%nat ->
  (i < length (index (prices A)))%nat -> (i < length (index (prices B)))%nat ->
  nth i wA [] = nth i wB [].
Proof.
  intros Hc Hk H1 H2 H3 H4 HsA HsB Hn Hi Hv Hm HA HB Hle HiA HiB.
  unfold get_signal_df in HA, HB.
  destruct (compute_scores fsqrt A) as [sA|] eqn:EA; [|discriminate].
  destruct (compute_scores fsqrt B) as [sB|] eqn:EB; [|discriminate].
  cbn [bind] in HA, HB.
  rewrite (get_signal_row _ _ _ _ _ i HsA HiA HA).
  rewrite (get_signal_row _ _ _ _ _ i HsB HiB HB).
  rewrite (held_prefix _ _ (index (prices A)) sA i (S n)) by assumption.
  rewrite (held_prefix _ _ (index (prices B)) sB i (S n)) by assumption.
  assert (Ecut : cut (S n) (prices A) = cut (S n) (prices B)).
  { unfold cut. now rewrite Hi, Hv, Hc. }
  assert (Es : firstn (S n) sA = firstn (S n) sB).
  { pose proof (compute_scores_cut fsqrt A (S n)) as CA.
    pose proof (compute_scores_cut fsqrt B (S n)) as CB.
    rewrite EA in CA. rewrite EB in CB. cbn [map_result] in CA, CB.
    rewrite (compute_scores_agree fsqrt
               (with_prices A (cut (S n) (prices A)))
               (with_prices B (cut (S n) (prices B)))) in CA.
    - rewrite CB in CA. now injection CA.
    - exact Ecut.
    - exact H1.
    - exact H2.
    - exact H3.
    - exact H4.
    - cbn [with_prices prices macro_data cut index].
      now apply (macro_agree_prefix _ n d0). }
  now rewrite Hc, Hk, Hi, Es.
Qed.

(** C6: two price panels (and macro panels) that agree on every date up
    to and including day T, the date of row n, and differ arbitrarily
    after, give daily weights that agree on every row up to and including
    the one that follows T: the weights held on a day are fixed by what was
    known at the previous close. *)
Theorem no_lookahead (PA PB : DataFrame) (mA mB : option DataFrame) (k : Z)
    (n i : nat) (wA wB : list Row) (d0 : Date) :
  columns PA = columns PB ->
  sorted_index (index PA) = true ->
  sorted_index (index PB) = true ->
  (n < length (index PA))%nat ->
  firstn (S n) (index PA) = firstn (S n) (index PB) ->
  firstn (S n) (values PA) = firstn (S n) (values PB) ->
  macro_agree_upto (nth n (index PA) d0) mA mB ->
  get_signal_df fsqrt (SectorStrategy_init PA mA k) = Ok wA ->
  get_signal_df fsqrt (SectorStrategy_init PB mB k) = Ok wB ->
  (i <= S n)%nat ->
  (i < length (index PA))%nat -> (i < length (index PB))%nat ->
  nth i wA [] = nth i wB [].
Proof.
  intros Hc HsA HsB Hn Hi Hv Hm HA HB Hle HiA HiB.
  apply (no_lookahead_objects (SectorStrategy_init PA mA k)
           (SectorStrategy_init PB mB k) n i wA wB d0);
    try assumption; try reflexivity.
  cbn [SectorStrategy_init prices values].
  rewrite !(apply_columns_firstn ffill) by apply ffill_causal.
  now rewrite Hv, Hc.
Qed.

End NoLookahead.

Lemma no_lookahead_witness :
  exists wA wB : list Row,
    get_signal_df (fun x => x) (SectorStrategy_init ex_prices_a (Some ex_macro_a) 1)
    = Ok wA /\
    get_signal_df (fun x => x) (SectorStrategy_init ex_prices_b (Some ex_macro_b) 1)
    = Ok wB /\
    nth 3 wA [] = nth 3 wB [].
Proof.
  eexists. eexists. split; [vm_compute; reflexivity|].
  split; [vm_compute; reflexivity|].
  apply (no_lookahead (fun x => x) ex_prices_a ex_prices_b
           (Some ex_macro_a) (Some ex_macro_b) 1 2 3 _ _ (mkDate 0 0 0)).
  - reflexivity.
  - reflexivity.
  - reflexivity.
  - simpl; lia.
  - reflexivity.
  - reflexivity.
  - split; reflexivity.
  - vm_compute; reflexivity.
  - vm_compute; reflexivity.
  - lia.
  - simpl; lia.
  - simpl; lia.
Defined.

(** With short windows the January selection is made on scores that the two
    panels share: both strategies hold the first asset on 2024-02-01, whatever
    the prices of that day are. *)
Example no_lookahead_short_windows :
  get_signal_df (fun x => x) (ex_short ex_prices_a ex_macro_a)
  = Ok [[Some 0; Some 0]; [Some 0; Some 0]; [Some 0; Some 0];
        [Some 1; Some 0]; [Some 1; Some 0]] /\
  forall wB : list Row,
    get_signal_df (fun x => x) (ex_short ex_prices_b ex_macro_b) = Ok wB ->
    nth 3 wB [] = [Some 1; Some 0].
Proof.
  split; [vm_compute; reflexivity|]. intros wB HB.
  symmetry.
  apply (no_lookahead_objects (fun x => x)
           (ex_short ex_prices_a ex_macro_a) (ex_short ex_prices_b ex_macro_b)
           2 3
           [[Some 0; Some 0]; [Some 0; Some 0]; [Some 0; Some 0];
            [Some 1; Some 0]; [Some 1; Some 0]]
           wB (mkDate 0 0 0));
    first [ assumption | vm_compute; reflexivity | split; reflexivity
          | simpl; lia ].
Qed.

(** ** Further properties of the trend oscillator *)

Lemma rolling_warmup w agg s t :
  (S t < w)%nat -> nth t (rolling w agg s) NaN = NaN.
Proof.
  intros H. destruct (Nat.lt_ge_cases t (length s)) as [Ht|Ht].
  - unfold rolling. rewrite (mapi_nth _ s t NaN NaN Ht).
    now replace (S t <? w)%nat with true by (symmetry; apply Nat.ltb_lt; lia).
  - apply nth_overflow. unfold rolling. now rewrite mapi_length.
Qed.

Lemma calculate_rsi_length s period : length (calculate_rsi s period) = length s.
Proof.
  unfold calculate_rsi, rolling, where_, diff.
  rewrite length_map, map2_length, !length_map, !mapi_length, !length_map, !mapi_length.
  lia.
Qed.

(** The value of the oscillator wherever its window is full. *)
Lemma calculate_rsi_value (s : Series) (period t : nat) :
  (1 <= period)%nat -> (period <= S t)%nat -> (t < length s)%nat ->
  nth t (calculate_rsi s period) NaN = Some (rsi_scale (ratio_rs s period t)).
Proof.
  intros Hp Ht Hl. unfold calculate_rsi.
  rewrite gains_numbers, losses_numbers.
  set (gain := rolling period window_mean _).
  set (loss := rolling period window_mean _).
  assert (Lg : length gain = length s).
  { unfold gain, rolling. now rewrite mapi_length, length_map, length_seq. }
  assert (Ll : length loss = length s).
  { unfold loss, rolling. now rewrite mapi_length, length_map, length_seq. }
  rewrite (nth_map_lt _ _ t _ NaN) by (rewrite map2_length, length_map; lia).
  rewrite (map2_nth _ _ _ t NaN NaN) by (rewrite ?length_map; lia).
  rewrite (nth_map_lt _ _ t _ NaN) by lia.
  unfold gain, loss.
  rewrite (rolling_mean_numbers (fun i => up_move (price_change s i))) by lia.
  rewrite (rolling_mean_numbers (fun i => down_move (price_change s i))) by lia.
  rewrite <- (map_map (price_change s) up_move).
  rewrite <- (map_map (price_change s) down_move).
  fold (window_changes s period t).
  fold (avg_gain s period t). fold (avg_loss s period t).
  pose proof (avg_gain_nonneg s period t) as Hg.
  pose proof (avg_loss_nonneg s period t) as Hlo.
  pose proof eps_pos as He.
  cbn [fadd lift2].
  rewrite fdiv_pos by lra. cbn [fadd lift2].
  assert (Hrs : 0 <= avg_gain s period t / (avg_loss s period t + eps)).
  { unfold Qdiv. apply Qmult_le_0_compat; [assumption|].
    apply Qinv_le_0_compat. lra. }
  rewrite fdiv_pos by lra. reflexivity.
Qed.

Lemma rsi_scale_bounds (ratio : Q) : 0 <= ratio -> 0 <= rsi_scale ratio /\ rsi_scale ratio < 100.
Proof.
  intros H. unfold rsi_scale.
  assert (Hd : 0 < 1 + ratio) by lra.
  assert (H1 : 100 / (1 + ratio) <= 100).
  { apply Qle_shift_div_r; [assumption|]. lra. }
  assert (H2 : 0 < 100 / (1 + ratio)).
  { apply Qlt_shift_div_l; [assumption|]. lra. }
  split; lra.
Qed.

Lemma ratio_rs_nonneg s period t : 0 <= ratio_rs s period t.
Proof.
  unfold ratio_rs, Qdiv. apply Qmult_le_0_compat; [apply avg_gain_nonneg|].
  apply Qinv_le_0_compat.
  pose proof (avg_loss_nonneg s period t). pose proof eps_pos. lra.
Qed.

Lemma calculate_rsi_warmup (s : Series) (period t : nat) :
  (S t < period)%nat -> (t < length s)%nat ->
  nth t (calculate_rsi s period) NaN = NaN.
Proof.
  intros E Ht. unfold calculate_rsi.
  rewrite (nth_map_lt _ _ t _ NaN).
  - rewrite (map2_nth _ _ _ t NaN NaN).
    + now rewrite rolling_warmup by assumption.
    + unfold rolling, where_, diff. now rewrite mapi_length, length_map, mapi_length.
    + unfold rolling, where_, diff.
      now rewrite length_map, mapi_length, !length_map, mapi_length.
  - pose proof (calculate_rsi_length s period) as L. unfold calculate_rsi in L.
    rewrite length_map in L. lia.
Qed.

(** X1. [calculate_rsi] is NaN on the first period-1 rows and a number on
    every row after, whatever the prices (missing prices included): the
    undefined first difference counts as no change. *)
Theorem calculate_rsi_defined_from (s : Series) (period t : nat) :
  (1 <= period)%nat -> (t < length s)%nat ->
  nth t (calculate_rsi s period) NaN
  = if (S t <? period)%nat then NaN else Some (rsi_scale (ratio_rs s period t)).
Proof.
  intros Hp Ht. destruct (S t <? period)%nat eqn:E.
  - apply Nat.ltb_lt in E. now apply calculate_rsi_warmup.
  - apply Nat.ltb_ge in E. now apply calculate_rsi_value.
Qed.

Lemma calculate_rsi_defined_from_witness :
  nth 12 (calculate_rsi ex_rising 14) NaN = NaN /\
  nth 13 (calculate_rsi ex_rising 14) NaN = Some (rsi_scale (ratio_rs ex_rising 14 13)).
Proof.
  split.
  - apply (calculate_rsi_defined_from ex_rising 14 12); [lia | simpl; lia].
  - apply (calculate_rsi_defined_from ex_rising 14 13); [lia | simpl; lia].
Defined.

(** X2. Wherever [calculate_rsi] is defined its value lies between 0 and
    100, both included. *)
Theorem calculate_rsi_range (s : Series) (period t : nat) (v : Q) :
  (1 <= period)%nat ->
  nth t (calculate_rsi s period) NaN = Some v ->
  0 <= v /\ v <= 100.
Proof.
  intros Hp Hv.
  assert (Ht : (t < length s)%nat).
  { destruct (Nat.lt_ge_cases t (length s)) as [H|H]; [assumption|].
    rewrite nth_overflow in Hv by (rewrite calculate_rsi_length; lia). discriminate. }
  destruct (Nat.lt_ge_cases (S t) period) as [E|E].
  - rewrite calculate_rsi_warmup in Hv by assumption. discriminate.
  - rewrite calculate_rsi_value in Hv by assumption. injection Hv as <-.
    destruct (rsi_scale_bounds _ (ratio_rs_nonneg s period t)) as [Hlo Hhi].
    split; [exact Hlo|now apply Qlt_le_weak].
Qed.

Lemma calculate_rsi_range_witness :
  0 <= rsi_scale (ratio_rs ex_rising 14 14) /\ rsi_scale (ratio_rs ex_rising 14 14) <= 100.
Proof.
  apply (calculate_rsi_range ex_rising 14 14); [lia|].
  apply (calculate_rsi_value ex_rising 14 14); [lia | lia | simpl; lia].
Defined.

Lemma Qsum_zeros {A} (l : list A) : Qsum (map (fun _ => 0) l) == 0.
Proof. induction l as [|x t IH]; simpl; [reflexivity|]. rewrite IH. ring. Qed.

(** X3. When no price of the window is above the price of the day before,
    the oscillator is 0 (a flat series gives 0, not 50). *)
Theorem calculate_rsi_without_gains (s : Series) (period t : nat) :
  (1 <= period)%nat -> (period <= S t)%nat -> (t < length s)%nat ->
  (forall i x y, (S t - period <= i <= t)%nat -> (1 <= i)%nat ->
     nth i s NaN = Some x -> nth (i - 1) s NaN = Some y -> x <= y) ->
  exists v : Q, nth t (calculate_rsi s period) NaN = Some v /\ v == 0.
Proof.
  intros Hp Ht Hl Hflat.
  exists (rsi_scale (ratio_rs s period t)).
  split; [now apply calculate_rsi_value|].
  assert (Hg : avg_gain s period t == 0).
  { unfold avg_gain, average, window_changes. rewrite map_map.
    rewrite (map_ext_in _ (fun _ => 0)).
    - rewrite Qsum_zeros. unfold Qdiv. ring.
    - intros i Hi. apply in_seq in Hi.
      unfold price_change, lagged, up_move. destruct i as [|i].
      + simpl. now destruct (nth 0 s NaN).
      + simpl Nat.ltb. cbv iota. rewrite Nat.sub_succ, Nat.sub_0_r.
        destruct (nth (S i) s NaN) as [x|] eqn:Ex; [|reflexivity].
        destruct (nth i s NaN) as [y|] eqn:Ey; [|reflexivity].
        simpl. unfold Qgtb.
        assert (Hxy : x <= y).
        { apply (Hflat (S i) x y); [lia|lia|assumption|].
          now rewrite Nat.sub_succ, Nat.sub_0_r. }
        replace (Qle_bool (x - y) 0) with true; [reflexivity|].
        symmetry. apply Qle_bool_iff. lra. }
  unfold rsi_scale, ratio_rs. rewrite Hg. unfold Qdiv. 
  setoid_replace (0 * / (avg_loss s period t + eps)) with 0 by ring.
  reflexivity.
Qed.

Lemma calculate_rsi_without_gains_witness :
  exists v : Q,
    nth 2 (calculate_rsi [Some 5; Some 5; Some 5; Some 5] 2) NaN = Some v /\ v == 0.
Proof.
  apply (calculate_rsi_without_gains [Some 5; Some 5; Some 5; Some 5] 2 2);
    [lia | lia | simpl; lia |].
  intros i x y Hi H1 Hx Hy.
  assert (Ei : i = 1%nat \/ i = 2%nat) by lia.
  destruct Ei as [-> | ->]; simpl in Hx, Hy; injection Hx as <-; injection Hy as <-;
    apply Qle_refl.
Defined.

(** ** Further properties of the cross-sectional z-score *)

Lemma dropna_all_nan {A} (f : A -> F) l :
  (forall x, In x l -> f x = None) -> dropna (map f l) = [].
Proof.
  induction l as [|x t IH]; intros H; [reflexivity|]. simpl.
  rewrite (H x) by now left. apply IH. intros y Hy. apply H. now right.
Qed.

Lemma dropna_centred (mu d : Q) (row : Row) :
  Qeq_bool d 0 = false ->
  dropna (map (fun x => fdiv (fsub x (Some mu)) (Some d)) row)
  = map (fun q => (q - mu) / d) (dropna row).
Proof.
  intros Hd. induction row as [|[q|] t IH]; simpl; [reflexivity| |assumption].
  rewrite Hd. simpl. now rewrite IH.
Qed.

Lemma Qsum_centred (mu d : Q) (l : list Q) :
  ~ d == 0 ->
  Qsum (map (fun q => (q - mu) / d) l) == (Qsum l - Qlen l * mu) / d.
Proof.
  intros Hd. unfold Qlen. induction l as [|x t IH]; simpl.
  - field. assumption.
  - rewrite IH. rewrite Zpos_P_of_succ_nat. unfold Z.succ. rewrite inject_Z_plus.
    field. assumption.
Qed.

Lemma Qlen_pos (x : Q) (t : list Q) : 0 < Qlen (x :: t).
Proof. unfold Qlen, Qlt. simpl. lia. Qed.

Section ZScoreFacts.

Variable fsqrt : Q -> Q.

(** X4. The z-scores of a row are centred: over the assets that have a
    value they sum to zero, whatever the standard deviation is. *)
Theorem zscore_row_centred (row : Row) : nansum (zscore_row fsqrt row) == 0.
Proof.
  unfold zscore_row, nansum.
  destruct (fadd (nanstd fsqrt row) (Some eps)) as [d|] eqn:Es.
  - destruct (Qeq_bool d 0) eqn:Ed.
    + rewrite dropna_all_nan; [reflexivity|].
      intros x _. unfold fdiv. destruct (fsub x (nanmean row)); [|reflexivity].
      now rewrite Ed.
    + unfold nanmean. destruct (dropna row) as [|q l] eqn:El.
      * rewrite dropna_all_nan; [reflexivity|]. intros x _. now destruct x.
      * rewrite dropna_centred by assumption. rewrite El.
        rewrite Qsum_centred by now apply Qeq_bool_neq.
        pose proof (Qlen_pos q l) as Hn.
        field. split; [lra | now apply Qeq_bool_neq].
  - rewrite dropna_all_nan; [reflexivity|]. intros x _. apply fdiv_nan_r.
Qed.

(** X5. A row with fewer than two values has no z-score at all: the
    sample standard deviation needs two observations. *)
Theorem zscore_row_needs_two (row : Row) :
  (length (dropna row) <= 1)%nat -> zscore_row fsqrt row = nan_row (length row).
Proof.
  intros H. unfold zscore_row, nanstd.
  replace (length (dropna row) <=? 1)%nat with true by (symmetry; apply Nat.leb_le; lia).
  cbn [fadd lift2]. unfold nan_row. rewrite <- map_const.
  apply map_ext. intros x. apply fdiv_nan_r.
Qed.

End ZScoreFacts.

Lemma zscore_row_needs_two_witness :
  zscore_row (fun x => x) [Some 3; None; None] = nan_row 3.
Proof. apply (zscore_row_needs_two (fun x => x) [Some 3; None; None]). simpl. lia. Defined.

(** ** Further properties of the regime overlay *)

Lemma column_position_mem c cols :
  column_position c cols = None <-> mem_label c cols = false.
Proof.
  induction cols as [|x t IH]; simpl; [tauto|].
  rewrite (String.eqb_sym c x). destruct (String.eqb x c); simpl.
  - split; discriminate.
  - rewrite <- IH. destruct (column_position c t); simpl; split; congruence.
Qed.

Lemma loc_add_nth mask sel delta cols regime i :
  (i < length mask)%nat -> (i < length regime)%nat ->
  nth i (loc_add mask sel delta cols regime) []
  = map2 (fun c x => if nth i mask false && sel c then fadd x (Some delta) else x)
         cols (nth i regime []).
Proof.
  intros Hm Hr. unfold loc_add.
  now rewrite (map2_nth _ mask regime i false [] [] Hm Hr).
Qed.

Lemma loc_add_length mask sel delta cols regime :
  length (loc_add mask sel delta cols regime) = Nat.min (length mask) (length regime).
Proof. unfold loc_add. apply map2_length. Qed.

Lemma map2_keep {A B} (cols : list A) (row : list B) :
  length row = length cols -> map2 (fun _ x => x) cols row = row.
Proof.
  revert row; induction cols as [|c t IH]; intros [|x r] H; simpl in *; try lia; auto.
  f_equal. apply IH. lia.
Qed.

Lemma rolling_length w agg s : length (rolling w agg s) = length s.
Proof. unfold rolling. apply mapi_length. Qed.

Lemma trend_flag_warmup (s : Series) i :
  (i < 49)%nat -> (i < length s)%nat ->
  nth i (map2 fgt s (rolling 50 window_mean s)) false = false.
Proof.
  intros H Hl.
  rewrite (map2_nth fgt s _ i NaN NaN) by (rewrite ?rolling_length; lia).
  rewrite rolling_warmup by lia. unfold fgt. now destruct (nth i s NaN).
Qed.

(** X6. [get_macro_regime] raises KeyError exactly when a macro panel is
    given that lacks the column 'INR=X' or the column 'CL=F'; the error goes
    through [compute_scores] and [get_signal_df].  Without a macro panel it
    returns None, and with both columns it returns one row per price
    date. *)
Theorem get_macro_regime_key_error (fsqrt : Q -> Q) (self : SectorStrategy) :
  match macro_data self with
  | None => get_macro_regime self = Ok None
  | Some md =>
      if mem_label "INR=X" (columns md) && mem_label "CL=F" (columns md)
      then exists regime,
             get_macro_regime self = Ok (Some regime) /\
             length regime = length (index (prices self))
      else get_macro_regime self = Raise KeyError /\
           compute_scores fsqrt self = Raise KeyError /\
           get_signal_df fsqrt self = Raise KeyError
  end.
Proof.
  unfold get_signal_df, compute_scores, get_macro_regime.
  destruct (calculate_factors fsqrt self) as [[[m v] r] l].
  destruct (macro_data self) as [md|]; [|reflexivity].
  destruct (column_position "INR=X" (columns md)) as [ju|] eqn:Eu.
  - assert (Hu : mem_label "INR=X" (columns md) = true).
    { destruct (mem_label "INR=X" (columns md)) eqn:E; [reflexivity|].
      apply column_position_mem in E. congruence. }
    rewrite Hu. cbn [andb].
    destruct (column_position "CL=F" (columns md)) as [jc|] eqn:Ec.
    + assert (Hc : mem_label "CL=F" (columns md) = true).
      { destruct (mem_label "CL=F" (columns md)) eqn:E; [reflexivity|].
        apply column_position_mem in E. congruence. }
      rewrite Hc. eexists. split; [reflexivity|].
      rewrite !loc_add_length, !map2_length, !rolling_length, !column_length,
              !apply_columns_length, length_map.
      unfold reindex. rewrite length_map. lia.
    + apply column_position_mem in Ec. rewrite Ec. cbn [andb]. repeat split.
  - apply column_position_mem in Eu. rewrite Eu. cbn [andb]. repeat split.
Qed.

(** X7. The overlay leaves alone what it has no ground to touch: on the
    first 49 rows, where no 50-day average exists yet, the whole row is 0, and
    on every row a column whose label contains none of 'IT', 'PHARMA' and
    'AUTO' is 0. *)
Theorem get_macro_regime_quiet (self : SectorStrategy) (regime : list Row) (i : nat) :
  get_macro_regime self = Ok (Some regime) ->
  (i < length (index (prices self)))%nat ->
  ((i < 49)%nat ->
   nth i regime [] = const_row (length (columns (prices self))) 0) /\
  (forall j c,
     nth_error (columns (prices self)) j = Some c ->
     contains "IT" c = false -> contains "PHARMA" c = false ->
     contains "AUTO" c = false ->
     cell regime i j = Some 0).
Proof.
  unfold get_macro_regime. intros H Hi.
  destruct (macro_data self) as [md|]; [|discriminate].
  destruct (column_position "INR=X" (columns md)) as [ju|]; [|discriminate].
  destruct (column_position "CL=F" (columns md)) as [jc|]; [|discriminate].
  injection H as <-.
  set (macro := apply_columns ffill (length (columns md))
                  (reindex (length (columns md)) (index (prices self))
                     (index md) (values md))) in *.
  assert (Lm : length macro = length (index (prices self))).
  { unfold macro, reindex. now rewrite apply_columns_length, length_map. }
  set (usd := column ju macro). set (crude := column jc macro).
  set (rw := map2 fgt usd (rolling 50 window_mean usd)).
  set (oil := map2 fgt crude (rolling 50 window_mean crude)).
  set (cols := columns (prices self)).
  set (zeros := map (fun _ => const_row (length cols) 0) (index (prices self))).
  assert (Lu : length usd = length (index (prices self)))
    by (unfold usd; now rewrite column_length).
  assert (Lc : length crude = length (index (prices self)))
    by (unfold crude; now rewrite column_length).
  assert (Lrw : length rw = length (index (prices self)))
    by (unfold rw; rewrite map2_length, rolling_length; lia).
  assert (Loil : length oil = length (index (prices self)))
    by (unfold oil; rewrite map2_length, rolling_length; lia).
  assert (Lz : length zeros = length (index (prices self)))
    by (unfold zeros; now rewrite length_map).
  assert (Ez : nth i zeros [] = const_row (length cols) 0).
  { unfold zeros. now rewrite (nth_map_lt _ _ i _ (mkDate 0 0 0)) by lia. }
  rewrite !loc_add_nth by (rewrite ?loc_add_length; lia). rewrite Ez.
  split.
  - intros H49.
    unfold rw, oil. rewrite !trend_flag_warmup by lia. cbn [andb].
    assert (K : map2 (fun (_ : string) (x : F) => x) cols (const_row (length cols) 0)
                = const_row (length cols) 0)
      by (apply map2_keep; unfold const_row; apply repeat_length).
    now rewrite !K.
  - intros j c Hj H1 H2 H3.
    assert (Hjl : (j < length cols)%nat) by (apply nth_error_Some; congruence).
    assert (Ec : nth j cols EmptyString = c) by now apply nth_error_nth.
    unfold cell. rewrite !loc_add_nth by (rewrite ?loc_add_length; lia). rewrite Ez.
    assert (G : forall (m : bool) sel delta (row : Row),
               length row = length cols -> sel c = false ->
               nth j (map2 (fun c0 x => if m && sel c0 then fadd x (Some delta) else x)
                           cols row) NaN
               = nth j row NaN).
    { intros m sel delta row Hr Hs.
      rewrite (map2_nth _ cols row j EmptyString NaN) by lia.
      now rewrite Ec, Hs, andb_false_r. }
    assert (L : forall (m : bool) sel delta (row : Row),
               length row = length cols ->
               length (map2 (fun c0 x => if m && sel c0 then fadd x (Some delta) else x)
                            cols row) = length cols).
    { intros. rewrite map2_length. lia. }
    assert (L0 : length (const_row (length cols) 0) = length cols)
      by (unfold const_row; apply repeat_length).
    rewrite (G (nth i oil false) (contains "AUTO") (- (1 # 2))) by (auto using L).
    rewrite (G (nth i rw false) (contains "PHARMA") (1 # 2)) by (auto using L).
    rewrite (G (nth i rw false) (contains "IT") (1 # 2)) by auto.
    unfold const_row. now rewrite nth_repeat_lt.
Qed.

Lemma get_macro_regime_quiet_witness :
  exists regime : list Row,
    get_macro_regime ex_regime_strategy = Ok (Some regime) /\
    nth 2 regime [] = const_row 2 0 /\
    cell regime 2 1 = Some 0.
Proof.
  eexists. split; [vm_compute; reflexivity|].
  destruct (get_macro_regime_quiet ex_regime_strategy _ 2 eq_refl
              (Nat.lt_succ_diag_r 2)) as [Ha Hb].
  split.
  - apply Ha. lia.
  - apply (Hb 1%nat "^NSEBANK"%string); reflexivity.
Defined.

(** ** Further properties of the Allocator *)

Lemma last_decision_snoc (ds : list (option Row)) (d : option Row) :
  last_decision (ds ++ [d])
  = match d with Some r => Some r | None => last_decision ds end.
Proof. rewrite last_decision_app. now destruct d. Qed.

Lemma held_step cols k idx scores i d0 :
  (i < length idx)%nat ->
  held cols k idx scores (S i)
  = if is_month_end (nth i idx d0)
    then target_row cols k
           (monthly_row (length cols) idx scores (month_index (nth i idx d0)))
    else held cols k idx scores i.
Proof.
  intros Hi. unfold held.
  rewrite (firstn_S_nth idx i d0 Hi), map_app. cbn [map].
  rewrite last_decision_snoc.
  unfold decision at 1.
  destruct (is_month_end (nth i idx d0)); reflexivity.
Qed.

(** X8. The daily weights change only on the trading day after a trading
    day that is a calendar month-end: the first row is all zero; the row after
    a month-end trading day carries the target weights of that month (all zero
    when the month was skipped); every other row repeats the row before. *)
Theorem daily_weights_step cols k idx scores :
  sorted_index idx = true -> k <> 0%Z ->
  exists daily,
    get_signal_from_scores cols k idx scores = Ok daily /\
    length daily = length idx /\
    ((0 < length idx)%nat -> nth 0 daily [] = const_row (length cols) 0) /\
    (forall i d0, (S i < length idx)%nat ->
       nth (S i) daily []
       = if is_month_end (nth i idx d0)
         then target_row cols k
                (monthly_row (length cols) idx scores (month_index (nth i idx d0)))
         else nth i daily []).
Proof.
  intros Hs Hk. exists (map (held cols k idx scores) (seq 0 (length idx))).
  split; [now apply daily_weights_held|].
  split; [now rewrite length_map, length_seq|]. split.
  - intros H0. now rewrite nth_seq_map.
  - intros i d0 Hi. rewrite !nth_seq_map by lia. apply held_step. lia.
Qed.

Lemma daily_weights_step_witness :
  exists daily,
    get_signal_from_scores ex_cols 2 ex_idx ex_scores = Ok daily /\
    length daily = length ex_idx /\
    ((0 < length ex_idx)%nat ->
       nth 0 daily [] = const_row (length ex_cols) 0) /\
    (forall i d0, (S i < length ex_idx)%nat ->
       nth (S i) daily []
       = if is_month_end (nth i ex_idx d0)
         then target_row ex_cols 2
                (monthly_row (length ex_cols) ex_idx ex_scores
                   (month_index (nth i ex_idx d0)))
         else nth i daily []).
Proof.
  apply (daily_weights_step ex_cols 2 ex_idx ex_scores); [reflexivity | lia].
Defined.

Section ZeroK.

Variable fsqrt : Q -> Q.

(** X9. With [top_k = 0] no month is skipped (no count is below 0) and the
    equal weight 1.0 / top_k divides by zero: on a non-empty price panel
    [get_signal_df] raises ZeroDivisionError as soon as the scores are
    computed. *)
Theorem get_signal_df_zero_top_k (self : SectorStrategy) :
  top_k self = 0%Z ->
  sorted_index (index (prices self)) = true ->
  index (prices self) <> [] ->
  get_signal_df fsqrt self
  = match compute_scores fsqrt self with
    | Ok _ => Raise ZeroDivisionError
    | Raise e => Raise e
    end.
Proof.
  intros Hk Hs Hne. unfold get_signal_df.
  destruct (compute_scores fsqrt self) as [s|e]; [|reflexivity].
  cbn [bind]. rewrite Hk. now apply get_signal_zero_k.
Qed.

End ZeroK.

Lemma get_signal_df_zero_top_k_witness :
  get_signal_df (fun x => x)
    (mkStrategy ex_prices_a (Some ex_macro_a) 0 1 2 1 2)
  = Raise ZeroDivisionError.
Proof.
  rewrite (get_signal_df_zero_top_k (fun x => x)
             (mkStrategy ex_prices_a (Some ex_macro_a) 0 1 2 1 2)).
  - vm_compute. reflexivity.
  - reflexivity.
  - reflexivity.
  - discriminate.
Defined.

Lemma insert_desc_sorted x l : desc_sorted l -> desc_sorted (insert_desc x l).
Proof.
  induction l as [|y t IH]; simpl; intros H.
  - split; [intros ? []|exact I].
  - destruct H as [Hy Ht]. unfold Qgtb.
    destruct (Qle_bool (snd y) (snd x)) eqn:E; simpl.
    + apply Qle_bool_iff in E. split; [|split; assumption].
      intros z [<-|Hz]; [assumption|].
      eapply Qle_trans; [apply Hy, Hz|assumption].
    + assert (Hlt : snd x < snd y).
      { apply Qnot_le_lt. intros H. apply Qle_bool_iff in H. congruence. }
      split; [|now apply IH].
      intros z Hz.
      apply (Permutation.Permutation_in _ (insert_desc_perm x t)) in Hz.
      destruct Hz as [<-|Hz]; [now apply Qlt_le_weak|now apply Hy].
Qed.

Lemma sort_desc_sorted l : desc_sorted (sort_desc l).
Proof.
  induction l as [|x t IH]; simpl; [exact I|]. now apply insert_desc_sorted.
Qed.

Lemma skipn_In {A} (x : A) n l : In x (skipn n l) -> In x l.
Proof.
  intros H. rewrite <- (firstn_skipn n l). apply in_or_app. now right.
Qed.

Lemma desc_sorted_split n l x y :
  desc_sorted l -> In x (firstn n l) -> In y (skipn n l) -> snd y <= snd x.
Proof.
  revert l; induction n as [|n IH]; intros l Hs Hx Hy; [contradiction|].
  destruct l as [|z t]; [contradiction|].
  simpl in *. destruct Hs as [Hz Ht]. destruct Hx as [<-|Hx].
  - apply Hz. now apply skipn_In in Hy.
  - now apply (IH t).
Qed.

Lemma NoDup_fst_functional (l : list (string * Q)) c q q' :
  NoDup (map fst l) -> In (c, q) l -> In (c, q') l -> q = q'.
Proof.
  induction l as [|[c0 q0] t IH]; intros Hn H1 H2; [contradiction|].
  simpl in Hn. inversion Hn as [|? ? Hnot Hn']; subst.
  destruct H1 as [E1|H1], H2 as [E2|H2].
  - congruence.
  - injection E1 as -> ->. exfalso. apply Hnot.
    change c with (fst (c, q')). now apply in_map.
  - injection E2 as -> ->. exfalso. apply Hnot.
    change c with (fst (c, q)). now apply in_map.
  - now apply IH.
Qed.

(** Every selected label has a score at least as large as the score of every
    label left out. *)
Lemma nlargest_dominates k (l : list (string * Q)) c c' q q' :
  NoDup (map fst l) -> In (c, q) l -> In (c', q') l ->
  In c (nlargest k l) -> ~ In c' (nlargest k l) -> q' <= q.
Proof.
  intros Hn Hc Hc' Hin Hout. unfold nlargest in *.
  set (n := Z.to_nat k) in *.
  assert (Hp := sort_desc_perm l).
  assert (Hn' : NoDup (map fst (sort_desc l))).
  { eapply Permutation.Permutation_NoDup; [|exact Hn].
    apply Permutation.Permutation_map, Permutation.Permutation_sym, Hp. }
  apply in_map_iff in Hin as [[c1 q1] [E1 Hin]]. simpl in E1. subst c1.
  assert (q1 = q).
  { apply (NoDup_fst_functional (sort_desc l) c); try assumption.
    - now apply firstn_In in Hin.
    - eapply Permutation.Permutation_in; [apply Permutation.Permutation_sym, Hp|assumption]. }
  subst q1.
  assert (Hs' : In (c', q') (sort_desc l)).
  { eapply Permutation.Permutation_in; [apply Permutation.Permutation_sym, Hp|assumption]. }
  rewrite <- (firstn_skipn n (sort_desc l)) in Hs'.
  apply in_app_or in Hs' as [Hf|Hk].
  - exfalso. apply Hout. change c' with (fst (c', q')). now apply in_map.
  - apply (desc_sorted_split n (sort_desc l) (c, q) (c', q'));
      [apply sort_desc_sorted|assumption|assumption].
Qed.

Lemma dropna_labelled_nth cols row j q :
  (j < length cols)%nat -> nth j row NaN = Some q ->
  In (nth j cols ""%string, q) (dropna_labelled cols row).
Proof.
  revert row j; induction cols as [|c t IH]; intros row j Hj Hq; [simpl in Hj; lia|].
  destruct row as [|x r]; [destruct j; discriminate|].
  destruct j as [|j]; simpl in *.
  - subst x. now left.
  - assert (H : In (nth j t ""%string, q) (dropna_labelled t r)) by (apply IH; [lia|assumption]).
    destruct x; [now right|assumption].
Qed.

Lemma weight_nonzero k : (1 <= k)%Z -> Some (1 / inject_Z k) <> Some 0.
Proof.
  intros Hk E. injection E as E.
  destruct k as [|p|p]; try lia. discriminate.
Qed.

(** X10. The assets that receive the weight 1/K in a month's target row are
    K of the best ranked ones: the score of an asset with weight 1/K is at
    least the score of every asset with a valid score and weight 0. *)
Theorem target_row_takes_the_largest cols k row j j' q q' :
  unique_labels cols = true -> (1 <= k)%Z ->
  (j < length cols)%nat -> (j' < length cols)%nat ->
  nth j row NaN = Some q -> nth j' row NaN = Some q' ->
  nth j (target_row cols k row) NaN = Some (1 / inject_Z k) ->
  nth j' (target_row cols k row) NaN = Some 0 ->
  q' <= q.
Proof.
  intros Hu Hk Hj Hj' Hq Hq' Hw Hw'.
  apply unique_labels_NoDup in Hu.
  unfold target_row in Hw, Hw'.
  destruct (Z.of_nat (valid_count cols row) <? k)%Z.
  - exfalso. unfold const_row in Hw. rewrite nth_repeat_lt in Hw by assumption.
    symmetry in Hw. now apply weight_nonzero in Hw.
  - set (top := nlargest k (dropna_labelled cols row)) in *.
    rewrite (nth_map_lt _ _ _ NaN ""%string) in Hw by assumption.
    rewrite (nth_map_lt _ _ _ NaN ""%string) in Hw' by assumption.
    apply (nlargest_dominates k (dropna_labelled cols row)
             (nth j cols ""%string) (nth j' cols ""%string)).
    + now apply dropna_labelled_NoDup.
    + now apply dropna_labelled_nth.
    + now apply dropna_labelled_nth.
    + apply mem_label_In. fold top.
      destruct (mem_label (nth j cols ""%string) top); [reflexivity|].
      symmetry in Hw. now apply weight_nonzero in Hw.
    + intros Hin. apply mem_label_In in Hin. fold top in Hin.
      rewrite Hin in Hw'. now apply weight_nonzero in Hw'.
Qed.

Lemma target_row_takes_the_largest_witness : (1 # 2 : Q) <= 3.
Proof.
  apply (target_row_takes_the_largest ["A"; "B"; "C"]%string 1
           [Some (1 # 2); None; Some 3] 2 0 3 (1 # 2));
    [reflexivity | lia | simpl; lia | simpl; lia
    | reflexivity | reflexivity | reflexivity | reflexivity].
Defined.

(** ** The warm-up of the scores and of the weights *)

Lemma map2_nth_or {A B C} (f : A -> B -> C) l1 l2 k dA dB dC :
  nth k (map2 f l1 l2) dC
  = if (k <? length l1)%nat && (k <? length l2)%nat
    then f (nth k l1 dA) (nth k l2 dB) else dC.
Proof.
  destruct (Nat.ltb_spec k (length l1)) as [H1|H1];
    destruct (Nat.ltb_spec k (length l2)) as [H2|H2]; cbn [andb];
    try (apply nth_overflow; rewrite map2_length; lia).
  now apply map2_nth.
Qed.

Lemma cell_frame_map2 op a b i j :
  cell (frame_map2 op a b) i j
  = if ((i <? length a)%nat && (i <? length b)%nat)
       && ((j <? length (nth i a []))%nat && (j <? length (nth i b []))%nat)
    then op (cell a i j) (cell b i j) else NaN.
Proof.
  unfold cell, frame_map2. rewrite (map2_nth_or (map2 op) a b i [] [] []).
  destruct ((i <? length a)%nat && (i <? length b)%nat); cbn [andb].
  - apply map2_nth_or.
  - now destruct j.
Qed.

Lemma cell_frame_map2_nan_l op a b i j :
  (forall y, op NaN y = NaN) -> cell a i j = NaN ->
  cell (frame_map2 op a b) i j = NaN.
Proof.
  intros Hop H. rewrite cell_frame_map2, H. now destruct (_ && _).
Qed.

Lemma cell_frame_map2_nan_r op a b i j :
  (forall x, op x NaN = NaN) -> cell b i j = NaN ->
  cell (frame_map2 op a b) i j = NaN.
Proof.
  intros Hop H. rewrite cell_frame_map2, H. now destruct (_ && _).
Qed.

Lemma cell_map_nan (g : F -> F) a i j :
  g NaN = NaN -> cell a i j = NaN -> cell (map (map g) a) i j = NaN.
Proof.
  intros Hg H. unfold cell in *.
  replace (nth i (map (map g) a) []) with (map g (nth i a []))
    by (symmetry; apply (map_nth (map g) a [] i)).
  pose proof (map_nth g (nth i a []) NaN j) as E.
  rewrite Hg, H in E. now rewrite E.
Qed.

Lemma cell_apply_columns f ncols rows i j :
  cell (apply_columns f ncols rows) i j
  = if (i <? length rows)%nat && (j <? ncols)%nat
    then nth i (f (column j rows)) NaN else NaN.
Proof.
  unfold cell.
  destruct (Nat.ltb_spec i (length rows)) as [Hi|Hi]; cbn [andb].
  - rewrite apply_columns_row by assumption.
    destruct (Nat.ltb_spec j ncols) as [Hj|Hj].
    + now rewrite nth_seq_map.
    + apply nth_overflow. now rewrite length_map, length_seq.
  - rewrite (nth_overflow (apply_columns f ncols rows))
      by now rewrite apply_columns_length.
    now destruct j.
Qed.

Lemma pct_change_warmup n s i :
  (i < n)%nat -> nth i (pct_change n s) NaN = NaN.
Proof.
  intros H. destruct (Nat.lt_ge_cases i (length s)) as [Hi|Hi].
  - unfold pct_change. rewrite (mapi_nth _ s i NaN NaN Hi). unfold lagged.
    replace (i <? n)%nat with true by (symmetry; apply Nat.ltb_lt; lia).
    now destruct (nth i s NaN).
  - apply nth_overflow. unfold pct_change. now rewrite mapi_length.
Qed.

Lemma last_valid_all_nan (s : Series) :
  (forall x, In x s -> x = NaN) -> last_valid s = NaN.
Proof.
  unfold last_valid. induction s as [|x t IH]; intros H; [reflexivity|].
  simpl. rewrite (H x (or_introl eq_refl)). apply IH.
  intros y Hy. apply H. now right.
Qed.

Lemma map_seq_const {A} (g : nat -> A) (v : A) a n :
  (forall j, g j = v) -> map g (seq a n) = repeat v n.
Proof.
  intros H. revert a; induction n as [|n IH]; intros a; simpl; [reflexivity|].
  now rewrite H, IH.
Qed.

Lemma rows_of_month_In mi idx rows r :
  In r (rows_of_month mi idx rows) -> In r rows.
Proof.
  unfold rows_of_month. intros H.
  apply in_map_iff in H as [[d r'] [E H]]. simpl in E. subst r'.
  apply filter_In in H as [H _]. now apply in_combine_r in H.
Qed.

Lemma monthly_row_all_nan ncols idx rows mi :
  (forall r, In r rows -> forall j, nth j r NaN = NaN) ->
  monthly_row ncols idx rows mi = nan_row ncols.
Proof.
  intros H. unfold monthly_row, nan_row. apply map_seq_const. intros j.
  apply last_valid_all_nan. intros x Hx. unfold column in Hx.
  apply in_map_iff in Hx as [r [<- Hr]]. apply H.
  now apply rows_of_month_In in Hr.
Qed.

Lemma valid_count_nan_row cols : valid_count cols (nan_row (length cols)) = 0%nat.
Proof.
  unfold valid_count, nan_row. induction cols as [|c t IH]; [reflexivity|exact IH].
Qed.

(** While every score is NaN no month has K valid scores, and nothing is
    held. *)
Lemma held_all_nan cols k idx scores i :
  (1 <= k)%Z -> (i <= length idx)%nat ->
  (forall r, In r scores -> forall j, nth j r NaN = NaN) ->
  held cols k idx scores i = const_row (length cols) 0.
Proof.
  intros Hk Hi H. apply (held_before_selection cols k idx scores i (mkDate 0 0 0) Hi).
  intros j _. unfold selection_made, month_valid_count.
  rewrite (monthly_row_all_nan _ _ _ _ H), valid_count_nan_row.
  replace (k <=? Z.of_nat 0)%Z with false by (symmetry; apply Z.leb_gt; lia).
  apply andb_false_r.
Qed.

Section WarmUp.

Variable fsqrt : Q -> Q.

Lemma cell_zscore_nan t i j :
  cell t i j = NaN -> cell (zscore fsqrt t) i j = NaN.
Proof.
  intros H. unfold cell, zscore in *.
  replace (nth i (map (zscore_row fsqrt) t) []) with (zscore_row fsqrt (nth i t []))
    by (symmetry; apply (map_nth (zscore_row fsqrt) t [] i)).
  unfold zscore_row.
  set (m := nanmean (nth i t [])). set (s := fadd (nanstd fsqrt (nth i t [])) (Some eps)).
  pose proof (map_nth (fun x => fdiv (fsub x m) s) (nth i t []) NaN j) as E.
  cbn beta in E. rewrite H in E. exact E.
Qed.

(** A cell of the composite score is NaN as soon as the momentum or the
    value factor of the cell is. *)
Lemma composite_nan mom vol rsi val boost i j :
  cell mom i j = NaN \/ cell val i j = NaN ->
  cell (composite fsqrt mom vol rsi val boost) i j = NaN.
Proof.
  intros H. unfold composite.
  assert (G : cell (frame_map2 fadd
                      (frame_scale (3 # 10) (zscore fsqrt mom))
                      (frame_scale (3 # 10) (frame_neg (zscore fsqrt val)))) i j = NaN).
  { destruct H as [H|H].
    - apply cell_frame_map2_nan_l; [reflexivity|].
      apply cell_map_nan; [reflexivity|]. now apply cell_zscore_nan.
    - apply cell_frame_map2_nan_r; [now intros [x|]|].
      apply cell_map_nan; [reflexivity|].
      apply cell_map_nan; [reflexivity|]. now apply cell_zscore_nan. }
  destruct boost as [b|].
  - apply cell_frame_map2_nan_l; [reflexivity|].
    apply cell_frame_map2_nan_l; [reflexivity|].
    apply cell_frame_map2_nan_l; [reflexivity|]. exact G.
  - apply cell_frame_map2_nan_l; [reflexivity|].
    apply cell_frame_map2_nan_l; [reflexivity|]. exact G.
Qed.

(** The scores of the first rows are NaN: a row has no 5-year average before
    [value_period] rows exist, and no 12-month return before
    [momentum_period] earlier rows exist. *)
Lemma compute_scores_warmup self s i j :
  compute_scores fsqrt self = Ok s ->
  (S i < value_period self)%nat \/ (i < momentum_period self)%nat ->
  cell s i j = NaN.
Proof.
  unfold compute_scores, calculate_factors. intros H Hi.
  destruct (get_macro_regime self) as [boost|e]; [|discriminate].
  cbn [bind] in H. injection H as <-.
  apply composite_nan. destruct Hi as [Hi|Hi].
  - right. apply cell_frame_map2_nan_l; [reflexivity|].
    apply cell_frame_map2_nan_r; [now intros [x|]|].
    rewrite cell_apply_columns. destruct (_ && _); [|reflexivity].
    now apply rolling_warmup.
  - left. rewrite cell_apply_columns. destruct (_ && _); [|reflexivity].
    now apply pct_change_warmup.
Qed.

(** X11. The warm-up: the daily weights of the first [value_period]
    trading days (1260 as the strategy is constructed), and of the first
    [momentum_period + 1], are all zero, whatever the prices: nothing is
    allocated before a 5-year average and a 12-month return exist. *)
Theorem get_signal_df_warmup (self : SectorStrategy) (w : list Row) (i : nat) :
  sorted_index (index (prices self)) = true ->
  (1 <= top_k self)%Z ->
  get_signal_df fsqrt self = Ok w ->
  (i < length (index (prices self)))%nat ->
  (i < value_period self)%nat \/ (i <= momentum_period self)%nat ->
  nth i w [] = const_row (length (columns (prices self))) 0.
Proof.
  intros Hs Hk H Hi Hw. unfold get_signal_df in H.
  destruct (compute_scores fsqrt self) as [s|e] eqn:E; [|discriminate].
  cbn [bind] in H.
  rewrite (get_signal_row _ _ _ _ _ i Hs Hi H).
  rewrite (held_prefix _ _ _ _ i i Hs (Nat.le_refl i)).
  apply held_all_nan; [assumption|rewrite length_firstn; lia|].
  intros r Hr j.
  destruct (In_nth _ _ [] Hr) as [p [Hp <-]].
  rewrite length_firstn in Hp. rewrite nth_firstn.
  replace (p <? i)%nat with true by (symmetry; apply Nat.ltb_lt; lia).
  apply (compute_scores_warmup self s p j E). lia.
Qed.

End WarmUp.

Lemma get_signal_df_warmup_witness :
  exists w : list Row,
    get_signal_df (fun x => x) (ex_short ex_prices_a ex_macro_a) = Ok w /\
    nth 1 w [] = const_row 2 0.
Proof.
  eexists. split; [vm_compute; reflexivity|].
  apply (get_signal_df_warmup (fun x => x) (ex_short ex_prices_a ex_macro_a) _ 1);
    [reflexivity | simpl; lia | vm_compute; reflexivity | simpl; lia
    | left; simpl; lia].
Defined.

(** ** Further properties of the backtest *)

Lemma nansum_zero_weights (w r : Row) :
  (forall x, In x w -> x = Some 0) -> nansum (map2 fmul w r) == 0.
Proof.
  unfold nansum. revert r; induction w as [|x t IH]; intros r H; [reflexivity|].
  destruct r as [|y u]; [reflexivity|].
  simpl. rewrite (H x (or_introl eq_refl)).
  assert (G : Qsum (dropna (map2 fmul t u)) == 0)
    by (apply IH; intros z Hz; apply H; now right).
  destruct y as [y|]; simpl; rewrite G; ring.
Qed.

Lemma Qprod_ones (l : list Q) :
  (forall q, In q l -> q == 0) -> Qprod (map (Qplus 1) l) == 1.
Proof.
  induction l as [|x t IH]; intros H; simpl; [reflexivity|].
  rewrite IH by (intros q Hq; apply H; now right).
  rewrite (H x (or_introl eq_refl)). ring.
Qed.

Lemma portfolio_returns_q_nth self t :
  (t < length (portfolio_returns_q self))%nat ->
  nth t (portfolio_returns_q self) 0
  = nansum (map2 fmul (nth t (values (bt_weights self)) [])
              (nth t (apply_columns (pct_change 1)
                        (length (columns (bt_prices self)))
                        (values (bt_prices self))) [])).
Proof.
  unfold portfolio_returns_q, frame_map2. rewrite length_map, map2_length.
  intros Ht. rewrite (nth_map_lt nansum _ t 0 []) by (rewrite map2_length; lia).
  now rewrite (map2_nth (map2 fmul) _ _ t [] [] []) by lia.
Qed.

Lemma run_equity_numbers self :
  ds_values (snd (run self))
  = map (fun c => fmul c (Some (initial_capital self)))
        (cumprod (map (fadd (Some 1)) (map Some (portfolio_returns_q self)))).
Proof.
  unfold run. cbn [snd ds_values]. do 3 f_equal.
  unfold portfolio_returns_q. now rewrite map_map.
Qed.

Lemma cumprod_from_length acc s : length (cumprod_from acc s) = length s.
Proof.
  revert acc; induction s as [|[x|] t IH]; intros acc; simpl; auto.
Qed.

Lemma run_equity_nth self T :
  (T < length (portfolio_returns_q self))%nat ->
  exists e,
    nth T (ds_values (snd (run self))) NaN = Some e /\
    e == initial_capital self
         * Qprod (map (Qplus 1) (firstn (S T) (portfolio_returns_q self))).
Proof.
  intros HT.
  destruct (cumprod_from_numbers 1 (portfolio_returns_q self) T HT) as [v [Hv Ev]].
  exists (v * initial_capital self). split.
  - rewrite run_equity_numbers. rewrite (nth_map_lt _ _ T _ NaN).
    + unfold cumprod. now rewrite Hv.
    + unfold cumprod. now rewrite cumprod_from_length, !length_map.
  - rewrite Ev. ring.
Qed.

(** X12. Cash earns nothing: while the rows of the weights are all zero,
    the portfolio return of [Backtest.run] is 0 and the equity curve stays
    at the initial capital, whatever the prices do (also where a price is
    missing or zero). *)
Theorem run_flat_while_unallocated (self : Backtest) (n t : nat) :
  (forall i x, (i < n)%nat ->
     In x (nth i (values (bt_weights self)) []) -> x = Some 0) ->
  (t < n)%nat ->
  (t < length (ds_values (fst (run self))))%nat ->
  exists r e : Q,
    nth t (ds_values (fst (run self))) NaN = Some r /\ r == 0 /\
    nth t (ds_values (snd (run self))) NaN = Some e /\
    e == initial_capital self.
Proof.
  intros Hz Ht Hl. rewrite run_returns_numbers, length_map in Hl.
  assert (Hq : forall i, (i < n)%nat -> (i < length (portfolio_returns_q self))%nat ->
                 nth i (portfolio_returns_q self) 0 == 0).
  { intros i Hi Hil. rewrite portfolio_returns_q_nth by assumption.
    apply nansum_zero_weights. intros x Hx. now apply (Hz i). }
  destruct (run_equity_nth self t Hl) as [e [He Ee]].
  exists (nth t (portfolio_returns_q self) 0), e.
  split; [|split; [|split]].
  - rewrite run_returns_numbers. now apply nth_map_lt.
  - now apply Hq.
  - exact He.
  - rewrite Ee, Qprod_ones; [ring|].
    intros q Hin. destruct (In_nth _ _ 0 Hin) as [p [Hp <-]].
    rewrite length_firstn in Hp. rewrite nth_firstn.
    replace (p <? S t)%nat with true by (symmetry; apply Nat.ltb_lt; lia).
    apply Hq; lia.
Qed.

Lemma run_flat_while_unallocated_witness :
  exists r e : Q,
    nth 0 (ds_values (fst (run (Backtest_init ex_bt_prices ex_bt_weights None 100000))))
        NaN = Some r /\ r == 0 /\
    nth 0 (ds_values (snd (run (Backtest_init ex_bt_prices ex_bt_weights None 100000))))
        NaN = Some e /\
    e == 100000.
Proof.
  apply (run_flat_while_unallocated
           (Backtest_init ex_bt_prices ex_bt_weights None 100000) 1 0).
  - intros i x Hi Hx. assert (i = 0%nat) by lia. subst i.
    vm_compute in Hx. destruct Hx as [<-|[<-|[]]]; reflexivity.
  - lia.
  - vm_compute. lia.
Defined.

Lemma dropna_plus_one (qs : list Q) :
  dropna (map (fun r => fadd r (Some 1)) (map Some qs)) = map (fun q => q + 1) qs.
Proof. induction qs as [|q t IH]; simpl; [reflexivity|]. now rewrite IH. Qed.

Lemma Qprod_plus_one_comm (qs : list Q) :
  Qprod (map (fun q => q + 1) qs) == Qprod (map (Qplus 1) qs).
Proof.
  induction qs as [|q t IH]; simpl; [reflexivity|]. rewrite IH. ring.
Qed.

Section ReportFacts.

Variable fsqrt : Q -> Q.
Variable pow_frac : Q -> Q -> F.

Lemma total_return_numbers (q : Q) (qs : list Q) :
  dict_get "Total Return" (calculate_metrics fsqrt pow_frac (map Some (q :: qs)))
  = Some (Some (Qprod (map (fun x => x + 1) (q :: qs)) - 1)).
Proof.
  unfold calculate_metrics.
  change (length (map Some (q :: qs)) <? 1)%nat with false.
  cbv zeta. unfold nanprod. rewrite dropna_plus_one. reflexivity.
Qed.

(** X13. The report agrees with the equity curve: on the returns of
    [Backtest.run], the "Total Return" of [calculate_metrics] is the growth
    of the equity curve, last equity = initial capital * (1 + Total
    Return). *)
Theorem final_equity_is_total_return (self : Backtest) :
  let rets := ds_values (fst (run self)) in
  let equity := ds_values (snd (run self)) in
  rets <> [] ->
  exists tr e : Q,
    dict_get "Total Return" (calculate_metrics fsqrt pow_frac rets) = Some (Some tr) /\
    nth (length equity - 1) equity NaN = Some e /\
    e == initial_capital self * (1 + tr).
Proof.
  intros rets equity Hne. subst rets equity.
  rewrite run_returns_numbers in *.
  assert (Hl : length (ds_values (snd (run self))) = length (portfolio_returns_q self)).
  { rewrite run_equity_numbers. unfold cumprod.
    now rewrite length_map, cumprod_from_length, !length_map. }
  rewrite Hl.
  destruct (portfolio_returns_q self) as [|q qs] eqn:Eq; [now elim Hne|].
  rewrite total_return_numbers.
  destruct (run_equity_nth self (length (q :: qs) - 1)) as [e [He Ee]];
    [rewrite Eq; simpl; lia|].
  exists (Qprod (map (fun x => x + 1) (q :: qs)) - 1), e.
  split; [reflexivity|]. split; [exact He|].
  rewrite Ee, Eq.
  replace (S (length (q :: qs) - 1)) with (length (q :: qs)) by (simpl; lia).
  rewrite firstn_all, Qprod_plus_one_comm. ring.
Qed.

End ReportFacts.

Lemma final_equity_is_total_return_witness :
  exists tr e : Q,
    dict_get "Total Return"
      (calculate_metrics (fun x => x) (fun _ _ => NaN)
         (ds_values (fst (run (Backtest_init ex_bt_prices ex_bt_weights None 100000)))))
    = Some (Some tr) /\
    nth (length (ds_values (snd (run (Backtest_init ex_bt_prices ex_bt_weights
                                        None 100000)))) - 1)
        (ds_values (snd (run (Backtest_init ex_bt_prices ex_bt_weights None 100000))))
        NaN = Some e /\
    e == 100000 * (1 + tr).
Proof.
  apply (final_equity_is_total_return (fun x => x) (fun _ _ => NaN)
           (Backtest_init ex_bt_prices ex_bt_weights None 100000)).
  vm_compute. discriminate.
Defined.

Lemma rel_changes_length prev ps : length (rel_changes prev ps) = length ps.
Proof. revert prev; induction ps as [|p t IH]; intros prev; simpl; auto. Qed.

Lemma rel_changes_nth ps : forall p0 t,
  (t < length ps)%nat ->
  nth t (rel_changes p0 ps) NaN
  = asset_return (nth (S t) (map Some (p0 :: ps)) NaN)
                 (nth t (map Some (p0 :: ps)) NaN).
Proof.
  induction ps as [|p u IH]; intros p0 t Ht; simpl in Ht; [lia|].
  destruct t as [|t]; [reflexivity|].
  cbn [rel_changes nth]. rewrite IH by lia. reflexivity.
Qed.

Lemma pct_change_1_numbers (p0 : Q) (ps : list Q) :
  pct_change 1 (map Some (p0 :: ps)) = NaN :: rel_changes p0 ps.
Proof.
  apply (nth_ext _ _ NaN NaN).
  - unfold pct_change. rewrite mapi_length, length_map. simpl.
    now rewrite rel_changes_length.
  - intros t Ht. unfold pct_change in Ht. rewrite mapi_length in Ht.
    rewrite pct_change_1_nth by assumption.
    destruct t as [|t]; [reflexivity|].
    cbn [nth]. rewrite rel_changes_nth; [reflexivity|].
    rewrite length_map in Ht. simpl in Ht. lia.
Qed.

Lemma last_cons_default {A} (a d : A) (t : list A) : last (a :: t) d = last t a.
Proof.
  revert a d; induction t as [|b u IH]; intros a d; [reflexivity|].
  change (last (a :: b :: u) d) with (last (b :: u) d).
  now rewrite (IH b d), (IH b a).
Qed.

Lemma Qeq_bool_nonzero (y : Q) : ~ y == 0 -> Qeq_bool y 0 = false.
Proof.
  intros H. destruct (Qeq_bool y 0) eqn:E; [|reflexivity].
  apply Qeq_bool_eq in E. contradiction.
Qed.

(** The product of the gross returns telescopes. *)
Lemma rel_changes_telescope ps : forall p0,
  ~ p0 == 0 -> (forall p, In p ps -> ~ p == 0) ->
  Qprod (dropna (map (fun r => fadd r (Some 1)) (rel_changes p0 ps))) * p0
  == last ps p0.
Proof.
  induction ps as [|p t IH]; intros p0 H0 H; [simpl; ring|].
  rewrite last_cons_default.
  assert (Hp : ~ p == 0) by (apply H; now left).
  rewrite <- (IH p Hp) by (intros q Hq; apply H; now right).
  cbn [rel_changes map]. unfold asset_return, fdiv.
  rewrite (Qeq_bool_nonzero p0 H0).
  cbn [fsub fadd lift2 dropna Qprod fold_right].
  fold (Qprod (dropna (map (fun r => fadd r (Some 1)) (rel_changes p t)))).
  field. exact H0.
Qed.

Lemma Qmin_list_range (lo hi x : Q) (l : list Q) :
  lo < x /\ x <= hi -> (forall y, In y l -> lo < y /\ y <= hi) ->
  lo < Qmin_list x l /\ Qmin_list x l <= hi.
Proof.
  unfold Qmin_list. revert x; induction l as [|y t IH]; intros x Hx H; [exact Hx|].
  simpl. apply IH.
  - destruct (Qle_bool y x); [apply H; now left|exact Hx].
  - intros z Hz. apply H. now right.
Qed.

(** The drawdowns after a peak [m] and a running product [acc]. *)
Lemma drawdown_entries (rs : list Q) : forall acc m,
  0 < acc -> acc <= m ->
  (forall r, In r rs -> -(1) < r) ->
  let cum := cumprod_from acc (map (fadd (Some 1)) (map Some rs)) in
  let peak := cummax_from (Some m) cum in
  exists ds : list Q,
    map2 fdiv (map2 fsub cum peak) peak = map Some ds /\
    length ds = length rs /\
    forall d, In d ds -> -(1) < d /\ d <= 0.
Proof.
  induction rs as [|r t IH]; intros acc m Ha Hm H; cbv zeta.
  - exists []. split; [reflexivity|]. split; [reflexivity|]. intros ? [].
  - assert (Hr : -(1) < r) by (apply H; now left).
    set (x := acc * (1 + r)).
    assert (Hx : 0 < x) by (unfold x; apply Qmult_lt_0_compat; lra).
    set (m' := if Qle_bool x m then m else x).
    assert (Hm' : x <= m' /\ 0 < m').
    { unfold m'. destruct (Qle_bool x m) eqn:E.
      - apply Qle_bool_iff in E. split; lra.
      - split; lra. }
    destruct Hm' as [Hxm Hpos].
    destruct (IH x m' Hx Hxm) as [ds [E [Hl Hd]]];
      [intros q Hq; apply H; now right|].
    exists ((x - m') / m' :: ds).
    cbn [map fadd lift2 cumprod_from cummax_from map2 fsub length].
    fold x. fold m'. rewrite (fdiv_pos _ _ Hpos).
    cbv zeta in E. rewrite E. split; [reflexivity|]. split; [now rewrite Hl|].
    intros d [<-|Hin]; [|now apply Hd]. split.
    + apply Qlt_shift_div_l; [assumption|lra].
    + apply Qle_shift_div_r; [assumption|lra].
Qed.

Section ReportRanges.

Variable fsqrt : Q -> Q.
Variable pow_frac : Q -> Q -> F.

(** X14. The benchmark column of the report: on benchmark prices
    p0, ..., pn that are all numbers and not zero, the "Total Return" that
    [calculate_metrics] computes from [get_benchmark_returns] is
    pn / p0 - 1; the undefined return of the first day counts for
    nothing. *)
Theorem benchmark_total_return (self : Backtest) (b : DatedSeries)
    (p0 : Q) (ps : list Q) :
  benchmark_prices self = Some b ->
  ds_values b = map Some (p0 :: ps) ->
  (forall p, In p (p0 :: ps) -> ~ p == 0) ->
  exists (br : DatedSeries) (tr : Q),
    get_benchmark_returns self = Some br /\
    ds_index br = ds_index b /\
    nth 0 (ds_values br) (Some 0) = NaN /\
    dict_get "Total Return" (calculate_metrics fsqrt pow_frac (ds_values br))
    = Some (Some tr) /\
    tr == last ps p0 / p0 - 1.
Proof.
  intros Hb Hv Hnz. unfold get_benchmark_returns. rewrite Hb, Hv.
  rewrite pct_change_1_numbers.
  eexists. eexists. split; [reflexivity|]. cbn [ds_index ds_values].
  split; [reflexivity|]. split; [reflexivity|]. split; [reflexivity|].
  cbn [map fadd lift2 NaN]. unfold nanprod. cbn [dropna].
  assert (H0 : ~ p0 == 0) by (apply Hnz; now left).
  rewrite <- (rel_changes_telescope ps p0 H0)
    by (intros p Hp; apply Hnz; now right).
  field. exact H0.
Qed.

(** X15. When no daily return is -100% or worse, the "Max Drawdown" of
    [calculate_metrics] is a number between -1 and 0, both included: the
    report never shows a positive drawdown nor a loss of more than
    everything. *)
Theorem max_drawdown_range (r : Q) (rs : list Q) :
  (forall x, In x (r :: rs) -> -(1) < x) ->
  exists md : Q,
    dict_get "Max Drawdown"
      (calculate_metrics fsqrt pow_frac (map Some (r :: rs))) = Some (Some md) /\
    -(1) <= md /\ md <= 0.
Proof.
  intros H. assert (Hr : -(1) < r) by (apply H; now left).
  set (x := 1 * (1 + r)).
  assert (Hx : 0 < x) by (unfold x; lra).
  destruct (drawdown_entries rs x x Hx (Qle_refl x)) as [ds [E [Hl Hd]]];
    [intros q Hq; apply H; now right|].
  cbv zeta in E.
  exists (Qmin_list ((x - x) / x) ds). split.
  - unfold calculate_metrics.
    change (length (map Some (r :: rs)) <? 1)%nat with false.
    cbv zeta. cbn [dict_get String.eqb Ascii.eqb Bool.eqb].
    unfold cumprod, cummax.
    cbn [map fadd lift2 cumprod_from cummax_from map2 fsub].
    fold x. rewrite (fdiv_pos _ _ Hx), E.
    unfold nanmin. cbn [dropna]. now rewrite dropna_numbers.
  - assert (G : -(1) < Qmin_list ((x - x) / x) ds /\ Qmin_list ((x - x) / x) ds <= 0).
    { apply Qmin_list_range; [|exact Hd]. split.
      + apply Qlt_shift_div_l; [assumption|lra].
      + apply Qle_shift_div_r; [assumption|lra]. }
    destruct G as [Glo Ghi]. split; [now apply Qlt_le_weak|exact Ghi].
Qed.

(** X16. The backtest runs on the dates that the prices and the weights
    share, in the order of the prices: the two series that [Backtest.run]
    returns are indexed by these dates and have one entry for each; with no
    common date both are empty and [calculate_metrics] returns the empty
    dict, nothing is raised. *)
Theorem run_on_common_dates (P W : DataFrame) bench ic :
  let common := filter (fun d => mem_date d (index W)) (index P) in
  let out := run (Backtest_init P W bench ic) in
  ds_index (fst out) = common /\
  ds_index (snd out) = common /\
  length (ds_values (fst out)) = length common /\
  length (ds_values (snd out)) = length common /\
  (common = [] ->
   calculate_metrics fsqrt pow_frac (ds_values (fst out)) = []).
Proof.
  cbv zeta.
  assert (L : length (ds_values (fst (run (Backtest_init P W bench ic))))
              = length (filter (fun d => mem_date d (index W)) (index P))).
  { rewrite run_returns_numbers, length_map.
    unfold portfolio_returns_q, frame_map2, Backtest_init, loc, reindex, intersection.
    cbn [bt_weights bt_prices values columns].
    now rewrite length_map, map2_length, apply_columns_length, !length_map, Nat.min_id. }
  repeat split.
  - exact L.
  - rewrite run_equity_numbers. unfold cumprod.
    rewrite length_map, cumprod_from_length, !length_map.
    now rewrite run_returns_numbers, length_map in L.
  - intros Hc. rewrite Hc in L.
    destruct (ds_values (fst (run (Backtest_init P W bench ic)))); [reflexivity|].
    discriminate.
Qed.

End ReportRanges.

Lemma benchmark_total_return_witness :
  exists (br : DatedSeries) (tr : Q),
    get_benchmark_returns
      (mkBacktest ex_bt_prices ex_bt_weights
         (Some (mkDS (index ex_bt_prices) [Some 200; Some 210])) 100000)
    = Some br /\
    ds_index br = index ex_bt_prices /\
    nth 0 (ds_values br) (Some 0) = NaN /\
    dict_get "Total Return"
      (calculate_metrics (fun x => x) (fun _ _ => NaN) (ds_values br))
    = Some (Some tr) /\
    tr == last [210] 200 / 200 - 1.
Proof.
  apply (benchmark_total_return (fun x => x) (fun _ _ => NaN)
           (mkBacktest ex_bt_prices ex_bt_weights
              (Some (mkDS (index ex_bt_prices) [Some 200; Some 210])) 100000)
           (mkDS (index ex_bt_prices) [Some 200; Some 210]) 200 [210]).
  - reflexivity.
  - reflexivity.
  - intros p [<-|[<-|[]]]; discriminate.
Defined.

Lemma max_drawdown_range_witness :
  exists md : Q,
    dict_get "Max Drawdown"
      (calculate_metrics (fun x => x) (fun _ _ => NaN)
         (map Some [1 # 10; -(1 # 5)])) = Some (Some md) /\
    -(1) <= md /\ md <= 0.
Proof.
  apply (max_drawdown_range (fun x => x) (fun _ _ => NaN) (1 # 10) [-(1 # 5)]).
  intros x [<-|[<-|[]]]; reflexivity.
Defined.

(** ** The constructor of the strategy *)

Lemma last_valid_snoc (s : Series) (x : F) :
  last_valid (s ++ [x]) = match x with Some _ => x | None => last_valid s end.
Proof. unfold last_valid. rewrite fold_left_app. reflexivity. Qed.

Lemma last_valid_some (s : Series) (v : Q) : In (Some v) s -> last_valid s <> NaN.
Proof.
  induction s as [|x t IH] using rev_ind; intros H; [contradiction|].
  rewrite last_valid_snoc. destruct x as [q|]; [discriminate|].
  apply IH. apply in_app_or in H as [H|[H|[]]]; [assumption|discriminate].
Qed.

(** X17. [SectorStrategy.__init__] forward-fills the prices: an observed
    price is kept, a gap after an observation of its column is filled, so
    that no column has a gap after its first observation, and the gaps
    before the first observation stay. *)
Theorem SectorStrategy_init_fills_gaps (P : DataFrame) macro k (i j : nat) :
  (i < length (values P))%nat -> (j < length (columns P))%nat ->
  let filled := values (prices (SectorStrategy_init P macro k)) in
  (forall v, cell (values P) i j = Some v -> cell filled i j = Some v) /\
  (forall i0 v, (i0 <= i)%nat -> cell (values P) i0 j = Some v ->
     cell filled i j <> NaN) /\
  ((forall i0, (i0 <= i)%nat -> cell (values P) i0 j = NaN) ->
   cell filled i j = NaN).
Proof.
  intros Hi Hj. cbv zeta. unfold SectorStrategy_init. cbn [prices values].
  assert (E : cell (apply_columns ffill (length (columns P)) (values P)) i j
              = last_valid (firstn (S i) (column j (values P)))).
  { rewrite cell_apply_columns.
    replace (i <? length (values P))%nat with true by (symmetry; now apply Nat.ltb_lt).
    replace (j <? length (columns P))%nat with true by (symmetry; now apply Nat.ltb_lt).
    cbn [andb]. apply ffill_nth. now rewrite column_length. }
  rewrite E. clear E.
  assert (Hc : forall p, nth p (column j (values P)) NaN = cell (values P) p j)
    by (intros p; apply column_nth).
  assert (Hl : length (column j (values P)) = length (values P))
    by apply column_length.
  split; [|split].
  - intros v Hv. rewrite (firstn_S_nth _ i NaN) by lia.
    now rewrite last_valid_snoc, Hc, Hv.
  - intros i0 v Hi0 Hv. apply (last_valid_some _ v).
    rewrite <- Hv, <- Hc.
    replace (nth i0 (column j (values P)) NaN)
      with (nth i0 (firstn (S i) (column j (values P))) NaN).
    + apply nth_In. rewrite length_firstn. lia.
    + rewrite nth_firstn.
      now replace (i0 <? S i)%nat with true by (symmetry; apply Nat.ltb_lt; lia).
  - intros H. apply last_valid_all_nan. intros x Hx.
    destruct (In_nth _ _ NaN Hx) as [p [Hp <-]].
    rewrite length_firstn in Hp. rewrite nth_firstn.
    replace (p <? S i)%nat with true by (symmetry; apply Nat.ltb_lt; lia).
    rewrite Hc. apply H. lia.
Qed.

Lemma SectorStrategy_init_fills_gaps_witness :
  let P := mkDF [mkDate 2024 1 29; mkDate 2024 1 30; mkDate 2024 1 31]
                ["^CNXIT"; "^NSEBANK"]%string
                [[Some 100; NaN]; [NaN; Some 52]; [NaN; NaN]] in
  let filled := values (prices (SectorStrategy_init P None 5)) in
  (forall v, cell (values P) 2 0 = Some v -> cell filled 2 0 = Some v) /\
  (forall i0 v, (i0 <= 2)%nat -> cell (values P) i0 0 = Some v ->
     cell filled 2 0 <> NaN) /\
  ((forall i0, (i0 <= 2)%nat -> cell (values P) i0 0 = NaN) ->
   cell filled 2 0 = NaN).
Proof.
  cbv zeta.
  apply (SectorStrategy_init_fills_gaps
           (mkDF [mkDate 2024 1 29; mkDate 2024 1 30; mkDate 2024 1 31]
                 ["^CNXIT"; "^NSEBANK"]%string
                 [[Some 100; NaN]; [NaN; Some 52]; [NaN; NaN]]) None 5 2 0);
    simpl; lia.
Defined.

(** ** The holdings of a day *)

Lemma invested_zeros n : invested (const_row n 0) = 0%nat.
Proof. unfold invested, const_row. induction n as [|n IH]; [reflexivity|exact IH]. Qed.

Lemma invested_indicator (p : string -> bool) (w : Q) cols :
  Qeq_bool w 0 = false ->
  invested (map (fun c => if p c then Some w else Some 0) cols)
  = length (filter p cols).
Proof.
  intros Hw. unfold invested. induction cols as [|c t IH]; [reflexivity|].
  cbn [map filter]. destruct (p c).
  - rewrite Hw. cbn [negb length]. now rewrite IH.
  - exact IH.
Qed.

Lemma weight_not_zero k : (1 <= k)%Z -> Qeq_bool (1 / inject_Z k) 0 = false.
Proof.
  intros Hk. destruct (Qeq_bool (1 / inject_Z k) 0) eqn:E; [|reflexivity].
  apply Qeq_bool_eq in E. exfalso.
  assert (Hz : ~ inject_Z k == 0).
  { intros H. apply (inject_Z_injective k 0) in H. lia. }
  assert (H1 : 1 / inject_Z k * inject_Z k == 1) by (field; exact Hz).
  rewrite E in H1. lra.
Qed.

Lemma target_row_invested cols k row :
  NoDup cols -> (1 <= k)%Z ->
  invested (target_row cols k row)
  = if (Z.of_nat (valid_count cols row) <? k)%Z then 0%nat else Z.to_nat k.
Proof.
  intros Hc Hk. unfold target_row.
  destruct (Z.of_nat (valid_count cols row) <? k)%Z eqn:Ev.
  - apply invested_zeros.
  - apply Z.ltb_ge in Ev.
    rewrite invested_indicator by now apply weight_not_zero.
    rewrite filter_members_length; try assumption.
    + apply nlargest_length. unfold valid_count in Ev. lia.
    + apply nlargest_NoDup. now apply dropna_labelled_NoDup.
    + intros c Hin. apply nlargest_In in Hin. eapply dropna_labelled_In; eauto.
Qed.

Lemma target_row_length cols k row : length (target_row cols k row) = length cols.
Proof.
  unfold target_row. destruct (_ <? k)%Z.
  - unfold const_row. apply repeat_length.
  - apply length_map.
Qed.

(** X18. Every row of the daily weights has one weight for each asset,
    each weight is 0 or exactly 1/K, and the row holds either no asset or
    exactly K assets: no day is partly invested. *)
Theorem daily_weights_holdings cols k idx scores :
  sorted_index idx = true -> unique_labels cols = true -> (1 <= k)%Z ->
  exists daily,
    get_signal_from_scores cols k idx scores = Ok daily /\
    length daily = length idx /\
    forall i : nat, (i < length idx)%nat ->
      length (nth i daily []) = length cols /\
      (forall x, In x (nth i daily []) -> x = Some 0 \/ x = Some (1 / inject_Z k)) /\
      (invested (nth i daily []) = 0%nat \/
       Z.of_nat (invested (nth i daily [])) = k).
Proof.
  intros Hs Hu Hk. apply unique_labels_NoDup in Hu.
  exists (map (held cols k idx scores) (seq 0 (length idx))).
  split; [apply daily_weights_held; [assumption|lia]|].
  split; [now rewrite length_map, length_seq|].
  intros i Hi. rewrite nth_seq_map by assumption.
  destruct (held_cases cols k idx scores i) as [E|[row E]]; rewrite E.
  - split; [unfold const_row; apply repeat_length|]. split.
    + intros x Hx. left. unfold const_row in Hx. now apply repeat_spec in Hx.
    + left. apply invested_zeros.
  - split; [apply target_row_length|]. split.
    + intros x Hx. eapply target_row_entries; eauto.
    + rewrite target_row_invested by assumption.
      destruct (_ <? k)%Z; [now left|right; lia].
Qed.

Lemma daily_weights_holdings_witness :
  exists daily,
    get_signal_from_scores ex_cols 2 ex_idx ex_scores = Ok daily /\
    length daily = length ex_idx /\
    forall i : nat, (i < length ex_idx)%nat ->
      length (nth i daily []) = length ex_cols /\
      (forall x, In x (nth i daily []) -> x = Some 0 \/ x = Some (1 / inject_Z 2)) /\
      (invested (nth i daily []) = 0%nat \/
       Z.of_nat (invested (nth i daily [])) = 2%Z).
Proof.
  apply (daily_weights_holdings ex_cols 2 ex_idx ex_scores);
    [reflexivity | reflexivity | lia].
Defined.
